(** * OPFSQuery: the worker executor and the request coordinator

    A shallow embedding of [src/OPFSQuery.js].  The script that runs inside
    each web worker ([workerContent]) is embedded in [Module Worker] as a
    program in a small exception/state monad whose state records the file
    and the ordered trace of handle operations and posted messages.  The
    main-thread side (the handler table [workerResponseHandler], the pools
    [activeWorkers] / [idleWorkers], the reclamation timer and the four
    worker-backed methods of [OPFSQuery]) is embedded in [Module Main] as a
    transition function over the synchronous segments the JavaScript event
    loop runs atomically. *)

From Stdlib Require Import ZArith Lia List Ascii String.
From Stdlib Require Import Strings.Byte.
From Stdlib Require Import QArith.
From stdpp Require Import gmap strings list.
Import ListNotations.
Local Open Scope Z_scope.

(** ** JavaScript values carried in the [option] object of a command *)

Module Js.

(** The primitive values an option field can hold.  Fractional numbers,
    NaN and strings are outside the model. *)
Inductive value : Type :=
| VUndef
| VNull
| VBool (b : bool)
| VInt (z : Z).

(** ToBoolean. *)
Definition truthy (v : value) : bool :=
  match v with
  | VUndef | VNull => false
  | VBool b => b
  | VInt z => negb (z =? 0)
  end.

(** [v || 0]. *)
Definition or_zero (v : value) : value :=
  if truthy v then v else VInt 0.

(** ToNumber; [None] stands for NaN. *)
Definition to_number (v : value) : option Z :=
  match v with
  | VUndef => None
  | VNull => Some 0
  | VBool b => Some (if b then 1 else 0)
  | VInt z => Some z
  end.

(** [!s] for a string-valued field that may be absent. *)
Definition missing_str (s : option string) : bool :=
  match s with
  | None => true
  | Some s => if decide (s = EmptyString) then true else false
  end.

(** [!x] for an object-valued field that may be absent. *)
Definition missing {A} (x : option A) : bool :=
  match x with None => true | Some _ => false end.

(** What a property read on a plain object finds on [Object.prototype],
    where the lookup goes on when the object has no property of its own
    under the key: a function, with its [length], or - under "__proto__" -
    the prototype object, which has no [length]. *)
Inductive Inherited : Type :=
| InheritedFunction (length : nat)
| InheritedObject.

Definition Object_prototype (key : string) : option Inherited :=
  if existsb (String.eqb key) ["toString"; "toLocaleString"; "valueOf"]%string
  then Some (InheritedFunction 0)
  else if existsb (String.eqb key)
            ["constructor"; "hasOwnProperty"; "isPrototypeOf";
             "propertyIsEnumerable"; "__lookupGetter__";
             "__lookupSetter__"]%string
  then Some (InheritedFunction 1)
  else if existsb (String.eqb key)
            ["__defineGetter__"; "__defineSetter__"]%string
  then Some (InheritedFunction 2)
  else if String.eqb key "__proto__" then Some InheritedObject
  else None.

End Js.

(** ** The worker script *)

Module Worker.
Import Js.

Inductive Error : Type :=
| MissingParameter           (* new Error("missing id | command | fileHandle!") *)
| NotFoundError
| NoModificationAllowedError (* the file is locked by another handle *)
| RangeError                 (* new ArrayBuffer(negative) *)
| TypeError                  (* an offset that is not an unsigned integer *)
| Busy (msg : string)        (* raised on the main thread only *)
| Fault (code : nat).        (* any other failure of the storage layer *)

(** The [option] object of a command. *)
Record Options : Type := mkOptions {
  at_ : value;
  size : value;
  flush : value
}.

(** [{}] *)
Definition no_options : Options := mkOptions VUndef VUndef VUndef.

(** A FileSystemFileHandle, identified by the path of its file. *)
Definition FileHandle : Type := string.

(** [event.data] as received by [self.onmessage]. *)
Record Message : Type := mkMessage {
  msg_id : option string;
  msg_command : option string;
  msg_data : option (list byte);
  msg_option : option Options;
  msg_fileHandle : option FileHandle
}.

(** The value in the [result] field of a response. *)
Inductive Result : Type :=
| RNum (n : Z)
| RBuf (b : list byte).

(** [{ id, result, error }]; [None] is [null] or [undefined]. *)
Record Response : Type := mkResponse {
  resp_id : option string;
  resp_result : option Result;
  resp_error : option Error
}.

(** The file behind the handle: its bytes, the bytes known to be on disk,
    and whether some other context currently holds its access handle. *)
Record File : Type := mkFile {
  contents : list byte;
  durable : list byte;
  locked : bool
}.

(** The operations of the storage layer that can throw. *)
Inductive Op : Type :=
| OpCreateSyncAccessHandle
| OpGetSize
| OpRead
| OpTruncate
| OpFlush
| OpWrite.

(** What the worker does, in program order. *)
Inductive Event : Type :=
| ECreateSyncAccessHandle
| EGetSize
| ERead (at_pos : Z) (len : nat)
| ETruncate (n : Z)
| EFlush
| EWrite (at_pos : Z) (data : list byte)
| EPostMessage (r : Response)
| EClose.

Record World : Type := mkWorld {
  file : File;
  accessHandle : bool;     (* the local variable [accessHandle] is set *)
  trace : list Event
}.

Inductive Outcome (A : Type) : Type :=
| Ok (a : A)
| Throw (e : Error).
Arguments Ok {A} a.
Arguments Throw {A} e.

Definition M (A : Type) : Type := World -> Outcome A * World.

Definition ret {A} (a : A) : M A := fun w => (Ok a, w).

Definition bind {A B} (m : M A) (k : A -> M B) : M B :=
  fun w => match m w with
           | (Ok a, w') => k a w'
           | (Throw e, w') => (Throw e, w')
           end.

Definition throw {A} (e : Error) : M A := fun w => (Throw e, w).

Notation "x <- m ;; k" := (bind m (fun x => k))
  (at level 100, m at next level, right associativity).
Notation "m ;;; k" := (bind m (fun _ => k))
  (at level 100, right associativity).

(** [try { body } catch (error) { handler error } finally { final }] *)
Definition try_catch_finally (body : M unit) (handler : Error -> M unit)
           (final : M unit) : M unit :=
  fun w =>
    match body w with
    | (Ok tt, w1) => final w1
    | (Throw e, w1) =>
        match handler e w1 with
        | (Ok tt, w2) => final w2
        | (Throw e', w2) =>
            match final w2 with
            | (Ok tt, w3) => (Throw e', w3)
            | (Throw e'', w3) => (Throw e'', w3)
            end
        end
    end.

Definition emit (e : Event) : M unit :=
  fun w => (Ok tt, mkWorld (file w) (accessHandle w) (trace w ++ [e])).

Definition get_file : M File := fun w => (Ok (file w), w).

Definition put_file (f : File) : M unit :=
  fun w => (Ok tt, mkWorld f (accessHandle w) (trace w)).

Definition get_accessHandle : M bool := fun w => (Ok (accessHandle w), w).

Definition set_accessHandle : M unit :=
  fun w => (Ok tt, mkWorld (file w) true (trace w)).

(** [zeros n]: a fresh buffer of [n] bytes. *)
Definition zeros (n : nat) : list byte := repeat x00 n.

(** Resize to [n] bytes, cutting or padding with zero bytes. *)
Definition resize (n : nat) (bs : list byte) : list byte :=
  firstn n bs ++ zeros (n - length bs).

(** Conversion of a dictionary member to [unsigned long long] with
    [EnforceRange]; an absent member means the file position cursor,
    which is 0 on a fresh handle. *)
Definition to_offset (v : value) : Outcome Z :=
  match v with
  | VUndef => Ok 0
  | _ => match to_number v with
         | Some z => if 0 <=? z then Ok z else Throw TypeError
         | None => Throw TypeError
         end
  end.

Section Executor.

(** Failures the storage layer may raise on its own (quota, I/O). *)
Variable faults : Op -> option Error.

Definition guard (o : Op) : M unit :=
  match faults o with
  | Some e => throw e
  | None => ret tt
  end.

(** [await fileHandle.createSyncAccessHandle()] *)
Definition createSyncAccessHandle : M unit :=
  f <- get_file ;;
  if locked f then throw NoModificationAllowedError
  else guard OpCreateSyncAccessHandle ;;;
       emit ECreateSyncAccessHandle.

(** [accessHandle.getSize()] *)
Definition getSize : M Z :=
  guard OpGetSize ;;;
  f <- get_file ;;
  emit EGetSize ;;;
  ret (Z.of_nat (length (contents f))).

(** [new ArrayBuffer(n)] *)
Definition new_ArrayBuffer (n : Z) : M (list byte) :=
  if n <? 0 then throw RangeError else ret (zeros (Z.to_nat n)).

(** [accessHandle.read(buffer, option)]: fills [buffer] from the file
    starting at the offset, until the buffer is full or the file ends. *)
Definition read (buffer : list byte) (opt : Options) : M (list byte) :=
  match to_offset (at_ opt) with
  | Throw e => throw e
  | Ok pos =>
      guard OpRead ;;;
      f <- get_file ;;
      emit (ERead pos (length buffer)) ;;;
      let got := firstn (length buffer) (skipn (Z.to_nat pos) (contents f)) in
      ret (got ++ skipn (length got) buffer)
  end.

(** [accessHandle.truncate(n)] *)
Definition truncate (n : Z) : M unit :=
  guard OpTruncate ;;;
  f <- get_file ;;
  emit (ETruncate n) ;;;
  put_file (mkFile (resize (Z.to_nat n) (contents f)) (durable f) (locked f)).

(** [accessHandle.flush()] *)
Definition flush_ : M unit :=
  guard OpFlush ;;;
  f <- get_file ;;
  emit EFlush ;;;
  put_file (mkFile (contents f) (contents f) (locked f)).

(** [accessHandle.write(data, option)]: returns the bytes written. *)
Definition write (data : list byte) (opt : Options) : M Z :=
  match to_offset (at_ opt) with
  | Throw e => throw e
  | Ok pos =>
      guard OpWrite ;;;
      f <- get_file ;;
      emit (EWrite pos data) ;;;
      let p := Z.to_nat pos in
      let old := contents f in
      let new := resize p old ++ data ++ skipn (p + length data) old in
      put_file (mkFile new (durable f) (locked f)) ;;;
      ret (Z.of_nat (length data))
  end.

(** [accessHandle.close()] *)
Definition close : M unit := emit EClose.

(** [self.postMessage({ id, result, error }, transfer)] *)
Definition respond (id : option string) (result : option Result)
           (error : option Error) : M unit :=
  emit (EPostMessage (mkResponse id result error)).

(** The body of the [switch (command)]. *)
Definition dispatch (id : option string) (command : string)
           (data : option (list byte)) (opt : Options) : M unit :=
  if decide (command = "getSize"%string) then
    n <- getSize ;;
    respond id (Some (RNum n)) None
  else if decide (command = "read"%string) then
    fileSize <- getSize ;;
    (* [option.at || 0] is never [undefined], so the difference is a number *)
    let off := match to_number (or_zero (at_ opt)) with
               | Some z => z
               | None => 0
               end in
    buffer <- new_ArrayBuffer (fileSize - off) ;;
    buffer' <- read buffer opt ;;
    respond id (Some (RBuf buffer')) None
  else if decide (command = "truncate"%string) then
    match size opt with
    | VInt sz =>                (* typeof option.size === "number" *)
        if 0 <=? sz then
          truncate sz ;;;
          (if truthy (flush opt) then flush_ else ret tt) ;;;
          respond id (Some (RNum sz)) None
        else respond id (Some (RNum 0)) None
    | _ => respond id (Some (RNum 0)) None
    end
  else if decide (command = "write"%string) then
    match data with
    | Some d =>
        writeSize <- write d opt ;;
        (if truthy (flush opt) then flush_ else ret tt) ;;;
        respond id (Some (RNum writeSize)) None
    | None => respond id (Some (RNum 0)) None
    end
  else ret tt.

(** [self.onmessage] *)
Definition onmessage (m : Message) : M unit :=
  let id := msg_id m in
  let command := msg_command m in
  let data := msg_data m in
  let opt := match msg_option m with Some o => o | None => no_options end in
  let fileHandle := msg_fileHandle m in
  if missing_str id || missing_str command || missing fileHandle then
    respond id None (Some MissingParameter)
  else
    try_catch_finally
      (createSyncAccessHandle ;;;
       set_accessHandle ;;;
       dispatch id (default EmptyString command) data opt)
      (fun error => respond id None (Some error))
      (h <- get_accessHandle ;;
       if h then close else ret tt).

(** Running the handler on a file nobody in this worker holds yet. *)
Definition run (m : Message) (f : File) : World :=
  snd (onmessage m (mkWorld f false [])).

End Executor.

Definition no_faults : Op -> option Error := fun _ => None.

(** Projections of a trace. *)
Definition responses (t : list Event) : list Response :=
  omap (fun e => match e with EPostMessage r => Some r | _ => None end) t.

Definition is_close (e : Event) : bool :=
  match e with EClose => true | _ => false end.

Definition is_post (e : Event) : bool :=
  match e with EPostMessage _ => true | _ => false end.

Definition is_acquire (e : Event) : bool :=
  match e with ECreateSyncAccessHandle => true | _ => false end.

Definition is_flush (e : Event) : bool :=
  match e with EFlush => true | _ => false end.

Definition count (p : Event -> bool) (t : list Event) : nat :=
  length (List.filter p t).

(** Position of the first event satisfying [p]. *)
Fixpoint index_of (p : Event -> bool) (t : list Event) : option nat :=
  match t with
  | [] => None
  | e :: t' => if p e then Some 0%nat else S <$> index_of p t'
  end.

End Worker.

(** ** The main thread: handler table, worker pool, timer, OPFSQuery methods *)

Module Main.
Import Js Worker.

(** A promise handed to a caller, named by a number. *)
Definition PromiseId : Type := nat.

(** The two functions a promise executor receives. *)
Inductive Callback : Type :=
| Resolve (p : PromiseId)
| Reject (p : PromiseId).

Inductive Arg : Type :=
| ArgResult (r : option Result)
| ArgError (e : Error).

(** One invocation of a callback. *)
Definition Call : Type := (Callback * Arg)%type.

(** A Worker object, named by its creation rank. *)
Definition WorkerId : Type := nat.

(** An async body parked on [await this.getFileHandle(fileName)]. *)
Inductive Suspended : Type :=
| SGetFileSize (id : string)
| SReadFile (id : string) (opt : option Options)
| STruncateFile (id : string) (opt : option Options) (p : PromiseId)
| SWriteFile (id : string) (buffer : option (list byte))
             (writeOption : Options) (p : PromiseId).

Record State : Type := mkState {
  workerResponseHandler : gmap string (list Callback);
  activeWorkers : list WorkerId;
  idleWorkers : list (option WorkerId);   (* [None] is an empty slot *)
  timeout : option Z;                     (* deadline of the armed timer *)
  workingDirectory : string;
  now : Z;                                (* clock, in milliseconds *)
  created : nat;                          (* workers constructed so far *)
  posted : list (WorkerId * Message);     (* worker.postMessage calls *)
  terminated : list WorkerId;             (* worker.terminate calls *)
  calls : list Call;                      (* resolve / reject invocations *)
  suspended : list Suspended;
  uncaught : list Error                   (* exceptions nobody handled *)
}.

Definition init : State :=
  mkState ∅ [] [] None EmptyString 0 0 [] [] [] [] [].

Definition set_handler (h : gmap string (list Callback)) (s : State) : State :=
  mkState h (activeWorkers s) (idleWorkers s) (timeout s)
          (workingDirectory s) (now s) (created s) (posted s)
          (terminated s) (calls s) (suspended s) (uncaught s).

Definition set_pool (a : list WorkerId) (i : list (option WorkerId))
           (s : State) : State :=
  mkState (workerResponseHandler s) a i (timeout s)
          (workingDirectory s) (now s) (created s) (posted s)
          (terminated s) (calls s) (suspended s) (uncaught s).

Definition set_timeout (t : option Z) (s : State) : State :=
  mkState (workerResponseHandler s) (activeWorkers s) (idleWorkers s) t
          (workingDirectory s) (now s) (created s) (posted s)
          (terminated s) (calls s) (suspended s) (uncaught s).

Definition set_now (t : Z) (s : State) : State :=
  mkState (workerResponseHandler s) (activeWorkers s) (idleWorkers s)
          (timeout s) (workingDirectory s) t (created s) (posted s)
          (terminated s) (calls s) (suspended s) (uncaught s).

Definition set_created (n : nat) (s : State) : State :=
  mkState (workerResponseHandler s) (activeWorkers s) (idleWorkers s)
          (timeout s) (workingDirectory s) (now s) n (posted s)
          (terminated s) (calls s) (suspended s) (uncaught s).

Definition add_posted (w : WorkerId) (m : Message) (s : State) : State :=
  mkState (workerResponseHandler s) (activeWorkers s) (idleWorkers s)
          (timeout s) (workingDirectory s) (now s) (created s)
          (posted s ++ [(w, m)])
          (terminated s) (calls s) (suspended s) (uncaught s).

Definition add_terminated (ws : list WorkerId) (s : State) : State :=
  mkState (workerResponseHandler s) (activeWorkers s) (idleWorkers s)
          (timeout s) (workingDirectory s) (now s) (created s) (posted s)
          (terminated s ++ ws) (calls s) (suspended s) (uncaught s).

Definition add_calls (cs : list Call) (s : State) : State :=
  mkState (workerResponseHandler s) (activeWorkers s) (idleWorkers s)
          (timeout s) (workingDirectory s) (now s) (created s) (posted s)
          (terminated s) (calls s ++ cs) (suspended s) (uncaught s).

Definition set_suspended (k : list Suspended) (s : State) : State :=
  mkState (workerResponseHandler s) (activeWorkers s) (idleWorkers s)
          (timeout s) (workingDirectory s) (now s) (created s) (posted s)
          (terminated s) (calls s) k (uncaught s).

Definition add_uncaught (e : Error) (s : State) : State :=
  mkState (workerResponseHandler s) (activeWorkers s) (idleWorkers s)
          (timeout s) (workingDirectory s) (now s) (created s) (posted s)
          (terminated s) (calls s) (suspended s) (uncaught s ++ [e]).

(** *** The reclamation timer *)

(** The loop of the timer callback over [idleWorkers[1 ..]]: the workers
    it terminates, and whether it ran into an empty slot (calling
    [terminate] on [undefined] throws and ends the callback). *)
Fixpoint terminate_all (ws : list (option WorkerId)) : list WorkerId * bool :=
  match ws with
  | [] => ([], false)
  | Some w :: ws' => let '(t, threw) := terminate_all ws' in (w :: t, threw)
  | None :: _ => ([], true)
  end.

(** [idleWorkers.length = 1] *)
Definition set_length_1 (ws : list (option WorkerId)) : list (option WorkerId) :=
  match ws with
  | [] => [None]
  | w :: _ => [w]
  end.

(** The function passed to [setTimeout]. *)
Definition timer_callback (s : State) : State :=
  let '(t, threw) := terminate_all (skipn 1 (idleWorkers s)) in
  let s1 := add_terminated t s in
  if threw then add_uncaught TypeError s1
  else set_pool (activeWorkers s1) (set_length_1 (idleWorkers s1)) s1.

Definition quiet_period : Z := 10000.

Definition clearIdleWorkers (s : State) : State :=
  set_timeout (Some (now s + quiet_period)) s.

(** *** The pool *)

(** [idleWorkers.pop()] *)
Definition pop (ws : list (option WorkerId))
  : option WorkerId * list (option WorkerId) :=
  match List.rev ws with
  | [] => (None, [])
  | w :: r => (w, List.rev r)
  end.

Definition startWorker (msgData : Message) (s : State) : State :=
  let '(popped, idle') := pop (idleWorkers s) in
  let '(worker, s1) :=
    match popped with
    | Some w => (w, s)
    | None => (created s, set_created (S (created s)) s)
    end in
  let s2 := set_pool (activeWorkers s1 ++ [worker]) idle' s1 in
  add_posted worker msgData s2.

(** [activeWorkers.splice(activeWorkers.indexOf(worker), 1)] *)
Fixpoint remove_first (w : WorkerId) (ws : list WorkerId) : list WorkerId :=
  match ws with
  | [] => []
  | x :: ws' => if decide (x = w) then ws' else x :: remove_first w ws'
  end.

Definition completeWork (worker : WorkerId) (s : State) : State :=
  set_pool (remove_first worker (activeWorkers s))
           (idleWorkers s ++ [Some worker]) s.

(** *** Fan-out of a response *)

(** The [for] loop of [handleWorkerResponse], stepping through [cb] two
    entries at a time; the flag tells that [cb[i + 1]] was [undefined]
    when it had to be called. *)
Fixpoint fan_out (cb : list Callback) (data : Response) : list Call * bool :=
  match cb with
  | [] => ([], false)
  | [res] =>
      match resp_error data with
      | Some _ => ([], true)
      | None => ([(res, ArgResult (resp_result data))], false)
      end
  | res :: rej :: rest =>
      let c := match resp_error data with
               | Some e => (rej, ArgError e)
               | None => (res, ArgResult (resp_result data))
               end in
      let '(cs, threw) := fan_out rest data in
      (c :: cs, threw)
  end.

(** [handleWorkerResponse(data)]; the flag tells that it threw.
    [workerResponseHandler] is a plain object: when it has no property of
    its own under [data.id] the read goes on to [Object.prototype].  If
    nothing is found there either, [cb] is undefined and reading
    [cb.length] throws.  An inherited function of length 0 and the object
    found under "__proto__" make the loop run zero times, and [delete]
    finds nothing to delete; an inherited function of a greater length has
    no [cb[0]] or [cb[1]] to call, which throws.  (Every registered key
    starts with the working directory and a slash, so a missing [id]
    finds none.) *)
Definition handleWorkerResponse (data : Response) (s : State) : State * bool :=
  match resp_id data with
  | None => (add_uncaught TypeError s, true)
  | Some id =>
      match workerResponseHandler s !! id with
      | None =>
          match Object_prototype id with
          | Some (InheritedFunction O) | Some InheritedObject => (s, false)
          | Some (InheritedFunction (S _)) | None =>
              (add_uncaught TypeError s, true)
          end
      | Some cb =>
          let '(cs, threw) := fan_out cb data in
          let s1 := add_calls cs s in
          if threw then (add_uncaught TypeError s1, true)
          else (set_handler (delete id (workerResponseHandler s1)) s1, false)
      end
  end.

(** [worker.onmessage] as installed by [startWorker]. *)
Definition worker_onmessage (worker : WorkerId) (data : Response)
           (s : State) : State :=
  let '(s1, threw) := handleWorkerResponse data s in
  if threw then s1
  else clearIdleWorkers (completeWork worker s1).

(** *** The worker-backed methods of OPFSQuery *)

Definition request_id (s : State) (fileName suffix : string) : string :=
  (workingDirectory s ++ "/" ++ fileName ++ suffix)%string.

(** The executor shared by [getFileSize] and [readFile], up to its
    [await]. *)
Definition shared_call (id : string) (k : Suspended) (p : PromiseId)
           (s : State) : State :=
  match workerResponseHandler s !! id with
  | Some cb =>
      set_handler (<[id := cb ++ [Resolve p; Reject p]]> (workerResponseHandler s)) s
  | None =>
      let s1 := set_handler (<[id := [Resolve p; Reject p]]> (workerResponseHandler s)) s in
      set_suspended (suspended s1 ++ [k]) s1
  end.

Definition getFileSize (fileName : string) (p : PromiseId) (s : State) : State :=
  let id := request_id s fileName "_getSize" in
  shared_call id (SGetFileSize id) p s.

Definition readFile (fileName : string) (opt : option Options)
           (p : PromiseId) (s : State) : State :=
  let id := request_id s fileName "_read" in
  shared_call id (SReadFile id opt) p s.

Definition truncateFile (fileName : string) (opt : option Options)
           (p : PromiseId) (s : State) : State :=
  let id := request_id s fileName "_truncate" in
  match workerResponseHandler s !! id with
  | Some _ =>
      add_calls [(Reject p, ArgError (Busy "Truncate fail: File is writing."))] s
  | None => set_suspended (suspended s ++ [STruncateFile id opt p]) s
  end.

(** [buffer] is the caller's data; [opt] the options without [transfer]. *)
Definition writeFile (fileName : string) (buffer : option (list byte))
           (opt : option Options) (p : PromiseId) (s : State) : State :=
  let id := request_id s fileName "_write" in
  match workerResponseHandler s !! id with
  | Some _ =>
      add_calls [(Reject p, ArgError (Busy "Write fail: File is writing."))] s
  | None =>
      let writeOption := match opt with Some o => o | None => no_options end in
      set_suspended (suspended s ++ [SWriteFile id buffer writeOption p]) s
  end.

(** The rest of an async body once [getFileHandle] has settled. *)
Definition resume (k : Suspended) (lookup : Outcome FileHandle)
           (s : State) : State :=
  match k, lookup with
  | SGetFileSize id, Ok fileHandle =>
      startWorker (mkMessage (Some id) (Some "getSize"%string) None None
                             (Some fileHandle)) s
  | SReadFile id opt, Ok fileHandle =>
      startWorker (mkMessage (Some id) (Some "read"%string) None opt
                             (Some fileHandle)) s
  | SGetFileSize _, Throw e | SReadFile _ _, Throw e =>
      add_uncaught e s
  | STruncateFile id opt p, Ok fileHandle =>
      let s1 := startWorker (mkMessage (Some id) (Some "truncate"%string) None opt
                                       (Some fileHandle)) s in
      set_handler (<[id := [Resolve p; Reject p]]> (workerResponseHandler s1)) s1
  | SWriteFile id buffer writeOption p, Ok fileHandle =>
      let s1 := startWorker (mkMessage (Some id) (Some "write"%string) buffer
                                       (Some writeOption) (Some fileHandle)) s in
      set_handler (<[id := [Resolve p; Reject p]]> (workerResponseHandler s1)) s1
  | STruncateFile _ _ p, Throw e | SWriteFile _ _ _ p, Throw e =>
      add_calls [(Reject p, ArgError e)] s
  end.

(** *** The event loop *)

(** What the main thread can be asked to run next. *)
Inductive Input : Type :=
| CallGetFileSize (fileName : string) (p : PromiseId)
| CallReadFile (fileName : string) (opt : option Options) (p : PromiseId)
| CallTruncateFile (fileName : string) (opt : option Options) (p : PromiseId)
| CallWriteFile (fileName : string) (buffer : option (list byte))
                (opt : option Options) (p : PromiseId)
| Settle (i : nat) (lookup : Outcome FileHandle) (* parked body [i] resumes *)
| WorkerMessage (worker : WorkerId) (data : Response)
| Elapse (dt : Z).

Definition step (s : State) (i : Input) : State :=
  match i with
  | CallGetFileSize f p => getFileSize f p s
  | CallReadFile f o p => readFile f o p s
  | CallTruncateFile f o p => truncateFile f o p s
  | CallWriteFile f b o p => writeFile f b o p s
  | Settle n lookup =>
      match suspended s !! n with
      | Some k => resume k lookup (set_suspended (delete n (suspended s)) s)
      | None => s
      end
  | WorkerMessage w data => worker_onmessage w data s
  | Elapse dt =>
      let s1 := set_now (now s + Z.max 0 dt) s in
      match timeout s1 with
      | Some d => if d <=? now s1 then timer_callback (set_timeout None s1) else s1
      | None => s1
      end
  end.

Definition steps (s : State) (inputs : list Input) : State :=
  fold_left step inputs s.

(** Live workers sitting in the idle array. *)
Definition idle_contexts (s : State) : list WorkerId :=
  omap (fun w => w) (idleWorkers s).

(** The commands posted under a given identity. *)
Definition executions (id : string) (s : State) : list (WorkerId * Message) :=
  List.filter (fun wm => if decide (msg_id (snd wm) = Some id) then true else false)
              (posted s).

End Main.

(** ** Navigation: [cd], [reset] and [getFileHandle] *)

Module Navigation.
Import Worker.

(** A FileSystemDirectoryHandle, identified by the names that lead to it
    from the root directory. *)
Definition DirectoryHandle : Type := list string.

(** [path.split("/")] *)
Fixpoint split_slash (path : string) : list string :=
  match path with
  | EmptyString => [EmptyString]
  | String c rest =>
      if Ascii.eqb c "/"%char then EmptyString :: split_slash rest
      else match split_slash rest with
           | part :: parts => String c part :: parts
           | [] => [String c EmptyString]
           end
  end.

(** The fields of an OPFSQuery object; [root] and [current] are promises,
    given here by the way they settle. *)
Record Query : Type := mkQuery {
  root : Outcome DirectoryHandle;
  current : Outcome DirectoryHandle;
  workingDirectory : string
}.

(** [reset()] *)
Definition reset (q : Query) : Query := mkQuery (root q) (root q) EmptyString.

Section Platform.

(** The storage behind the handles, the [option] argument handed through
    to it, and the two lookups of a directory handle: how the returned
    promise settles and what the call does to the storage. *)
Variable Tree : Type.
Variable Opt : Type.
Variable dir_getDirectoryHandle :
  DirectoryHandle -> string -> Opt -> Tree -> Outcome DirectoryHandle * Tree.
Variable dir_getFileHandle :
  DirectoryHandle -> string -> Tree -> Outcome FileHandle.

(** The [for await] loop of [cd] over the parts of the path.  [await
    current] throws when the previous lookup was rejected; the lookup of
    the last part is not awaited inside the loop. *)
Fixpoint cd_loop (parts : list string) (opt : Opt)
         (current : Outcome DirectoryHandle) (directory : string) (t : Tree)
  : Outcome (Outcome DirectoryHandle * string) * Tree :=
  match parts with
  | [] => (Ok (current, directory), t)
  | part :: parts' =>
      if decide (part = EmptyString) then cd_loop parts' opt current directory t
      else
        match current with
        | Throw e => (Throw e, t)
        | Ok h =>
            let '(next, t') := dir_getDirectoryHandle h part opt t in
            cd_loop parts' opt next (directory ++ "/" ++ part)%string t'
        end
  end.

(** [cd(path, option)]: the object afterwards, the way the returned promise
    settles, and the storage afterwards. *)
Definition cd (path : string) (opt : Opt) (q : Query) (t : Tree)
  : Query * Outcome DirectoryHandle * Tree :=
  match cd_loop (split_slash path) opt (root q) EmptyString t with
  | (Ok (current, directory), t') =>
      (mkQuery (root q) current directory, current, t')
  | (Throw e, t') => (q, Throw e, t')
  end.

(** Looking the parts up one after the other, each in the directory the
    one before gave, up to the first that is rejected. *)
Fixpoint walk (parts : list string) (opt : Opt) (h : DirectoryHandle) (t : Tree)
  : Outcome DirectoryHandle * Tree :=
  match parts with
  | [] => (Ok h, t)
  | part :: parts' =>
      match dir_getDirectoryHandle h part opt t with
      | (Ok h', t') => walk parts' opt h' t'
      | (Throw e, t') => (Throw e, t')
      end
  end.

(** [getFileHandle(fileName)] *)
Definition getFileHandle (fileName : string) (q : Query) (t : Tree)
  : Outcome FileHandle :=
  match current q with
  | Throw e => Throw e
  | Ok h => dir_getFileHandle h fileName t
  end.

End Platform.

(** The non-empty parts of a path, and the working directory they spell. *)
Definition nonempty (part : string) : bool :=
  negb (String.eqb part EmptyString).

Definition segments (path : string) : list string :=
  List.filter nonempty (split_slash path).

Definition directory_of (parts : list string) : string :=
  fold_left (fun directory part => (directory ++ "/" ++ part)%string)
            parts EmptyString.

(** *** The origin private file system

    A model of the storage after the File System standard: the entries
    below the root, each a directory or a file, keyed by their path. *)

Inductive Node : Type :=
| DirectoryNode
| FileNode.

(** The error for a name that is taken by an entry of the other kind. *)
Definition TypeMismatchError : Error := Fault 0.

(** A valid name is not empty, is neither "." nor "..", and holds no
    slash (splitting it at slashes gives it back whole). *)
Definition valid_name (name : string) : bool :=
  negb (String.eqb name EmptyString) && negb (String.eqb name ".")
  && negb (String.eqb name "..")
  && forallb (fun part => String.eqb part name) (split_slash name).

Definition is_directory (h : DirectoryHandle) (t : gmap (list string) Node) : bool :=
  match h with
  | [] => true
  | _ => match t !! h with Some DirectoryNode => true | _ => false end
  end.

(** [dir.getDirectoryHandle(name, { create })] *)
Definition opfs_getDirectoryHandle (h : DirectoryHandle) (name : string)
           (create : bool) (t : gmap (list string) Node)
  : Outcome DirectoryHandle * gmap (list string) Node :=
  if negb (valid_name name) then (Throw TypeError, t)
  else if negb (is_directory h t) then (Throw NotFoundError, t)
  else
    match t !! (h ++ [name]) with
    | Some DirectoryNode => (Ok (h ++ [name]), t)
    | Some FileNode => (Throw TypeMismatchError, t)
    | None =>
        if create then (Ok (h ++ [name]), <[h ++ [name] := DirectoryNode]> t)
        else (Throw NotFoundError, t)
    end.

End Navigation.

(** ** Listings: [sorter], [readableSize] and the loop of [ls] *)

Module Listing.
Import Worker.

(** What [sorter] reads of the two objects it compares: their [name] and
    [kind], each a string or undefined. *)
Record Entry : Type := mkEntry {
  name : option string;
  kind : option string
}.

(** An object that has a name and one of the two kinds a FileSystemHandle
    can have. *)
Definition is_handle (e : Entry) : Prop :=
  is_Some (name e) /\
  (kind e = Some "file"%string \/ kind e = Some "directory"%string).

Section Sorter.

(** [a.localeCompare(b)]: negative, zero or positive. *)
Variable localeCompare : string -> string -> Z.

(** [sorter(a, b)].  Reading [localeCompare] off an undefined [name]
    throws; an undefined argument of [localeCompare] is compared as the
    string "undefined". *)
Definition sorter (a b : Entry) : Outcome Z :=
  if decide (kind a = kind b) then
    match name a with
    | None => Throw TypeError
    | Some name_a =>
        Ok (localeCompare name_a (default "undefined"%string (name b)))
    end
  else Ok (if decide (kind a = Some "directory"%string) then -1 else 1).

End Sorter.

Definition K : Q := 1024.

Definition units : list string :=
  ["B"; "KB"; "MB"; "GB"; "TB"]%string.

(** The [while] loop of [readableSize], run for at most [fuel] rounds: the
    scaled size and the index of its unit.  Dividing a size by 1024 is
    exact in floating point, so rational arithmetic gives the same
    numbers. *)
Fixpoint readableSize_loop (fuel : nat) (size : Q) (unitIdx : nat) : Q * nat :=
  match fuel with
  | O => (size, unitIdx)
  | S fuel' =>
      if Qle_bool 1024 size && (unitIdx <? 4)%nat
      then readableSize_loop fuel' (size / K)%Q (unitIdx + 1)
      else (size, unitIdx)
  end.

(** The bytes in one unit: 1024 to the power of its index. *)
Fixpoint unit_factor (unitIdx : nat) : Q :=
  match unitIdx with
  | O => 1
  | S n => 1024 * unit_factor n
  end.

(** The number and the unit [readableSize] builds its string from (the
    number is printed with at most two decimals). *)
Definition readableSize_parts (size : Z) : Q * string :=
  let '(scaled, unitIdx) := readableSize_loop 4 (inject_Z size) 0 in
  (scaled, nth unitIdx units EmptyString).

(** What [ls] reads of a File. *)
Record FileInfo : Type := mkFileInfo {
  file_size : Z;
  file_type : string;
  file_lastModified : Z
}.

(** A FileSystemHandle as [ls] reads it: its [name], its [kind], and the
    way the promise of [getFile()] settles. *)
Record Handle : Type := mkHandle {
  handle_name : string;
  handle_kind : string;
  handle_getFile : Outcome FileInfo
}.

(** The object [ls] pushes for an entry it lists without detail. *)
Record Plain : Type := mkPlain {
  plain_name : string;
  plain_kind : string;
  plain_relativePath : string;
  plain_handle : Handle
}.

(** The object the promise of a detailed entry is fulfilled with. *)
Record Detail : Type := mkDetail {
  detail_name : string;
  detail_kind : string;
  detail_size : Z;
  detail_diskcost : Q * string;
  detail_type : string;
  detail_lastModified : Z;
  detail_relativePath : string;
  detail_handle : Handle
}.

(** An element of the list of [ls]: an object, or the promise that
    [handle.getFile().then(...)] returns, given by the way it settles. *)
Inductive Listed : Type :=
| Object (o : Plain)
| Promise (settles : Outcome Detail).

(** One round of the [for await] loop of [ls]: what is pushed for
    [handle]. *)
Definition ls_push (detail : bool) (path : string) (handle : Handle) : Listed :=
  let relativePath := (path ++ "/" ++ handle_name handle)%string in
  if detail && bool_decide (handle_kind handle = "file"%string) then
    Promise
      match handle_getFile handle with
      | Ok file =>
          Ok (mkDetail (handle_name handle) (handle_kind handle)
                       (file_size file) (readableSize_parts (file_size file))
                       (file_type file) (file_lastModified file)
                       relativePath handle)
      | Throw e => Throw e
      end
  else
    Object (mkPlain (handle_name handle) (handle_kind handle) relativePath
                    handle).

(** The loop of [ls] over the handles the directory yields: the list that
    is handed to [sort]. *)
Definition ls_loop (detail : bool) (path : string) (handles : list Handle)
  : list Listed :=
  fold_left (fun list handle => list ++ [ls_push detail path handle])
            handles [].

(** What [sorter] reads of an element of that list: an object has its
    [name] and [kind], a promise has neither. *)
Definition as_entry (x : Listed) : Entry :=
  match x with
  | Object o => mkEntry (Some (plain_name o)) (Some (plain_kind o))
  | Promise _ => mkEntry None None
  end.

End Listing.

(** * Properties of the worker script *)

Import Js Worker.

(** The four commands the [switch] has a case for. *)
Definition known_command (c : string) : Prop :=
  c = "getSize"%string \/ c = "read"%string \/
  c = "truncate"%string \/ c = "write"%string.

#[global] Instance known_command_dec (c : string) : Decision (known_command c).
Proof. unfold known_command. apply _. Defined.

(** One of [id], [command], [fileHandle] is falsy. *)
Definition missing_field (m : Message) : Prop :=
  missing_str (msg_id m) = true \/ missing_str (msg_command m) = true \/
  msg_fileHandle m = None.

(** Exactly one of [result] and [error] is set in a response. *)
Definition exactly_one_set (r : Response) : Prop :=
  (is_Some (resp_result r) /\ resp_error r = None) \/
  (resp_result r = None /\ is_Some (resp_error r)).

(** The handler posts exactly one response, with exactly one field set. *)
Definition responds_once (faults : Op -> option Error) (m : Message) (f : File) : Prop :=
  exists r, responses (trace (run faults m f)) = [r] /\ exactly_one_set r.

(** The handle is closed exactly once, and closed before the response is
    posted. *)
Definition closed_once_before_response (t : list Event) : Prop :=
  count is_close t = 1%nat /\
  forall c p, index_of is_close t = Some c -> index_of is_post t = Some p ->
              (c < p)%nat.

(** Sample inputs. *)
Definition sample_file : File :=
  mkFile ["a"; "b"; "c"; "d"]%byte [] false.

Definition sample_message (command : string) (opt : option Options) : Message :=
  mkMessage (Some "/notes.txt_op"%string) (Some command) None opt
            (Some "notes.txt"%string).

(** * Vocabulary for the main thread *)

Import Main.

(** The handler-table entry holding the callbacks of the promises [ps]. *)
Definition waiters (ps : list PromiseId) : list Callback :=
  flat_map (fun p => [Resolve p; Reject p]) ps.

(** How a response reaches the waiter that owns promise [p]. *)
Definition deliver (data : Response) (p : PromiseId) : Call :=
  match resp_error data with
  | Some e => (Reject p, ArgError e)
  | None => (Resolve p, ArgResult (resp_result data))
  end.

(** The worker [startWorker] will hand the next command to. *)
Definition next_worker (s : State) : WorkerId :=
  match fst (pop (idleWorkers s)) with
  | Some w => w
  | None => created s
  end.

(** A batch of calls of one method on one file, each with its own argument
    and its own promise. *)
Definition calls_of {X : Type} (call : string -> X -> PromiseId -> Input)
           (f : string) (xps : list (X * PromiseId)) : list Input :=
  map (fun xp => call f (fst xp) (snd xp)) xps.

(** The two shareable methods, [getFileSize] and [readFile]. *)
Inductive Shareable : Type :=
| SizeQuery
| ReadQuery.

Definition shareable_suffix (k : Shareable) : string :=
  match k with
  | SizeQuery => "_getSize"
  | ReadQuery => "_read"
  end.

(** A call of the method; [getFileSize] takes no options. *)
Definition shareable_call (k : Shareable) (f : string) (o : option Options)
           (p : PromiseId) : Input :=
  match k with
  | SizeQuery => CallGetFileSize f p
  | ReadQuery => CallReadFile f o p
  end.

Definition shareable_parked (k : Shareable) (id : string) (o : option Options)
  : Suspended :=
  match k with
  | SizeQuery => SGetFileSize id
  | ReadQuery => SReadFile id o
  end.

(** The command the method posts once it has the file handle. *)
Definition shareable_message (k : Shareable) (id : string) (o : option Options)
           (fh : FileHandle) : Message :=
  match k with
  | SizeQuery => mkMessage (Some id) (Some "getSize"%string) None None (Some fh)
  | ReadQuery => mkMessage (Some id) (Some "read"%string) None o (Some fh)
  end.

(** The two exclusive methods, [truncateFile] and [writeFile]. *)
Inductive Exclusive : Type :=
| TruncateOp
| WriteOp.

Definition exclusive_suffix (k : Exclusive) : string :=
  match k with
  | TruncateOp => "_truncate"
  | WriteOp => "_write"
  end.


(** A call of the method; [truncateFile] takes no buffer. *)
Definition exclusive_call (k : Exclusive) (f : string)
           (x : option (list byte) * option Options) (p : PromiseId) : Input :=
  match k with
  | TruncateOp => CallTruncateFile f (snd x) p
  | WriteOp => CallWriteFile f (fst x) (snd x) p
  end.

Definition exclusive_parked (k : Exclusive) (id : string)
           (x : option (list byte) * option Options) (p : PromiseId) : Suspended :=
  match k with
  | TruncateOp => STruncateFile id (snd x) p
  | WriteOp =>
      SWriteFile id (fst x)
                 (match snd x with Some o => o | None => no_options end) p
  end.


(** A burst: commands started one after the other, none answered yet. *)
Definition start_all (msgs : list Message) (s : State) : State :=
  fold_left (fun s m => startWorker m s) msgs s.

(** The pool side of [worker.onmessage], for each worker of [ws] in turn. *)
Definition complete_all (ws : list WorkerId) (s : State) : State :=
  fold_left (fun s w => clearIdleWorkers (completeWork w s)) ws s.


(** Promise [p] has had one of its callbacks invoked. *)
Definition settled (p : PromiseId) (s : State) : Prop :=
  exists a, In (Resolve p, a) (calls s) \/ In (Reject p, a) (calls s).

(** Every entry of the handler table holds the two callbacks of one or more
    promises, in pairs. *)
Definition table_ok (h : gmap string (list Callback)) : Prop :=
  forall id cb, h !! id = Some cb -> exists ps, ps <> [] /\ cb = waiters ps.

Definition table_inv (s : State) : Prop :=
  table_ok (workerResponseHandler s).

(** A worker message can only come from a worker that is running a
    command. *)
Definition input_ok (s : State) (i : Input) : Prop :=
  match i with
  | WorkerMessage w _ => In w (activeWorkers s)
  | _ => True
  end.

Fixpoint well_formed (s : State) (inputs : list Input) : Prop :=
  match inputs with
  | [] => True
  | i :: rest => input_ok s i /\ well_formed (step s i) rest
  end.

(** A pool in order: no worker is listed twice among the active and the
    idle ones, every worker named was created, a terminated worker is
    neither active nor idle, and only slot 0 of the idle array can be
    empty. *)
Definition pool_ok (active : list WorkerId) (idle : list (option WorkerId))
           (gone : list WorkerId) (made : nat) : Prop :=
  NoDup (active ++ omap (fun w => w) idle) /\
  (forall w, w ∈ active ++ omap (fun w => w) idle ++ gone -> (w < made)%nat) /\
  (forall w, w ∈ gone -> w ∉ active ++ omap (fun w => w) idle) /\
  Forall (fun slot : option WorkerId => is_Some slot) (skipn 1 idle).

Definition pool_inv (s : State) : Prop :=
  pool_ok (activeWorkers s) (idleWorkers s) (terminated s) (created s).

(** Two states with the same pool. *)
Definition same_pool (s s' : State) : Prop :=
  activeWorkers s = activeWorkers s' /\ idleWorkers s = idleWorkers s' /\
  terminated s = terminated s' /\ created s = created s'.

(** Completions that follow one another, each after a pause: time passes,
    then the pool side of [worker.onmessage] runs for the worker. *)
Definition busy_period (evs : list (Z * WorkerId)) (s : State) : State :=
  fold_left (fun s ev => clearIdleWorkers
                           (completeWork (snd ev) (step s (Elapse (fst ev)))))
            evs s.

(** The characters of a string. *)
Definition has_slash (f : string) : Prop :=
  In "/"%char (list_ascii_of_string f).

(** The four suffixes that close a request identity. *)
Definition is_suffix (x : string) : Prop :=
  x = "_getSize"%string \/ x = "_read"%string \/
  x = "_truncate"%string \/ x = "_write"%string.

(** A storage layer on which flushing fails and nothing else does. *)
Definition flush_fails (e : Error) : Op -> option Error :=
  fun o => match o with OpFlush => Some e | _ => None end.

(** A command the worker will run: it has a non-empty [id], one of the four
    commands, and a file handle. *)
Definition command_ok (m : Message) : Prop :=
  (exists id, msg_id m = Some id /\ id <> EmptyString) /\
  (exists c, msg_command m = Some c /\ known_command c) /\
  is_Some (msg_fileHandle m).

(** The identity a parked body will post its command under. *)
Definition parked_id (k : Suspended) : string :=
  match k with
  | SGetFileSize id | SReadFile id _ | STruncateFile id _ _
  | SWriteFile id _ _ _ => id
  end.

(** Every command posted so far is one the worker will run, and every
    parked body holds a non-empty identity. *)
Definition commands_inv (s : State) : Prop :=
  Forall (fun wm : WorkerId * Message => command_ok (snd wm)) (posted s) /\
  Forall (fun k => parked_id k <> EmptyString) (suspended s).

Lemma responses_app (a b : list Event) :
  responses (a ++ b) = responses a ++ responses b.
Proof. unfold responses. apply omap_app. Qed.

Lemma count_app (p : Event -> bool) (a b : list Event) :
  count p (a ++ b) = (count p a + count p b)%nat.
Proof. unfold count. now rewrite List.filter_app, length_app. Qed.

Ltac unfold_ops :=
  unfold dispatch, getSize, new_ArrayBuffer, read, truncate, flush_, write,
    respond, createSyncAccessHandle, close, guard, set_accessHandle,
    get_accessHandle, get_file, put_file, emit, bind, ret, throw in *.

Ltac split_cases :=
  repeat match goal with
    | |- context [decide ?P] => destruct (decide P); subst
    | |- context [match ?f ?o with Some _ => _ | None => _ end] =>
        match type of o with Op => destruct (f o) end
    | |- context [to_offset ?v] => destruct (to_offset v)
    | |- context [if ?a <? ?b then _ else _] => destruct (a <? b)
    | |- context [if ?a <=? ?b then _ else _] => destruct (a <=? b)
    | |- context [truthy ?v] => destruct (truthy v)
    | |- context [match size ?o with _ => _ end] => destruct (size o)
    | |- context [match ?d with Some _ => _ | None => _ end] =>
        match type of d with option (list byte) => destruct d end
    | _ => progress simpl
    end.

(** What the [switch] does to the world, whatever the storage layer does. *)
Lemma dispatch_spec faults id cmd data opt w o w' :
  dispatch faults id cmd data opt w = (o, w') ->
  exists evs,
    trace w' = trace w ++ evs /\ accessHandle w' = accessHandle w /\
    count is_close evs = 0%nat /\ count is_acquire evs = 0%nat /\
    match o with
    | Ok _ =>
        (known_command cmd ->
         exists r, responses evs = [r] /\ last evs = Some (EPostMessage r) /\
                   resp_id r = id /\ is_Some (resp_result r) /\
                   resp_error r = None) /\
        (~ known_command cmd -> evs = [])
    | Throw _ => responses evs = []
    end.
Proof.
  unfold known_command. unfold_ops. split_cases;
    intros [= <- <-]; simpl; rewrite <- ?app_assoc; simpl;
    (eexists; split; [try reflexivity; symmetry; apply app_nil_r |]);
    simpl; repeat split; try reflexivity; try tauto;
    try (intros _; eexists; repeat split; try reflexivity; eauto);
    try (intros H; exfalso; apply H; tauto).
Qed.

Lemma missing_field_true (m : Message) :
  missing_field m <->
  missing_str (msg_id m) || missing_str (msg_command m) || missing (msg_fileHandle m) = true.
Proof.
  unfold missing_field, missing. rewrite !orb_true_iff.
  destruct (msg_fileHandle m); intuition congruence.
Qed.

Lemma last_snoc {A} (l : list A) (x : A) : last (l ++ [x]) = Some x.
Proof. induction l as [|a [|b l] IH]; simpl in *; auto. Qed.

Lemma count_cons (p : Event -> bool) (e : Event) (l : list Event) :
  count p (e :: l) = ((if p e then 1 else 0) + count p l)%nat.
Proof. unfold count. cbn. destruct (p e); reflexivity. Qed.

Lemma createSyncAccessHandle_run faults w :
  createSyncAccessHandle faults w =
  if locked (file w) then (Throw NoModificationAllowedError, w)
  else match faults OpCreateSyncAccessHandle with
       | Some e => (Throw e, w)
       | None => (Ok tt, mkWorld (file w) (accessHandle w)
                                 (trace w ++ [ECreateSyncAccessHandle]))
       end.
Proof.
  unfold createSyncAccessHandle, guard, bind, get_file, throw, ret, emit.
  destruct (locked (file w)); [reflexivity |].
  destruct (faults OpCreateSyncAccessHandle); reflexivity.
Qed.

(** The shape of every run whose message has its three required fields:
    either the handle could not be acquired and the only thing done is
    posting the error, or the handle is acquired first, closed last, and
    never closed in between. *)
Lemma run_present faults m f :
  ~ missing_field m ->
  let t := trace (run faults m f) in
  (exists e, t = [EPostMessage (mkResponse (msg_id m) None (Some e))] /\
             (locked f = true \/ is_Some (faults OpCreateSyncAccessHandle)))
  \/
  (locked f = false /\ faults OpCreateSyncAccessHandle = None /\
   exists evs c,
     msg_command m = Some c /\
     t = ECreateSyncAccessHandle :: evs ++ [EClose] /\
     count is_close evs = 0%nat /\ count is_acquire evs = 0%nat /\
     ((exists r, responses evs = [r] /\ last evs = Some (EPostMessage r) /\
                 exactly_one_set r /\ resp_id r = msg_id m)
      \/ (~ known_command c /\ evs = []))).
Proof.
  intros Hm t. assert (Et : t = trace (run faults m f)) by reflexivity.
  clearbody t. rewrite missing_field_true in Hm.
  apply not_true_is_false in Hm.
  unfold run, onmessage in Et. rewrite Hm in Et.
  destruct (msg_command m) as [c|] eqn:Hc;
    [| rewrite orb_true_r in Hm; discriminate].
  unfold try_catch_finally in Et. unfold bind at 1 in Et.
  rewrite createSyncAccessHandle_run in Et. cbn [file accessHandle trace] in Et.
  destruct (locked f) eqn:Hl.
  { left. cbn in Et. eexists. split; [exact Et | now left]. }
  destruct (faults OpCreateSyncAccessHandle) as [e|] eqn:Hf.
  { left. cbn in Et. eexists. split; [exact Et | right; eauto]. }
  right. do 2 (split; [reflexivity |]).
  unfold bind at 1 in Et. unfold set_accessHandle at 1 in Et.
  cbn [file accessHandle trace app default from_option] in Et.
  match type of Et with
  | context [dispatch ?a ?b ?c ?d ?e ?w] =>
      destruct (dispatch a b c d e w) as [o w'] eqn:Hd
  end.
  apply dispatch_spec in Hd as (evs & Ht & Hh & Hcl & Hac & Ho).
  cbn [trace accessHandle app] in Ht, Hh.
  destruct o as [[]|e].
  - unfold get_accessHandle, bind, close, emit in Et. rewrite Hh in Et.
    cbn in Et. rewrite Ht in Et. exists evs, c. repeat split; auto.
    destruct Ho as [Hk Hn].
    destruct (decide (known_command c)) as [K|K].
    + left. destruct (Hk K) as (r & ? & ? & ? & ? & ?).
      exists r. repeat split; auto. left. auto.
    + right. auto.
  - unfold respond, get_accessHandle, bind, close, emit in Et. cbn in Et.
    rewrite Hh in Et. cbn in Et. rewrite Ht in Et.
    exists (evs ++ [EPostMessage (mkResponse (msg_id m) None (Some e))]), c.
    rewrite <- !app_assoc in Et.
    split; [reflexivity |].
    split; [rewrite Et, <- app_assoc; reflexivity |].
    split; [rewrite count_app, Hcl; reflexivity |].
    split; [rewrite count_app, Hac; reflexivity |].
    left. eexists. rewrite responses_app, Ho, last_snoc. cbn.
    repeat split; auto. right. cbn. eauto.
Qed.

Lemma run_missing faults m f :
  missing_field m ->
  run faults m f =
  mkWorld f false
          [EPostMessage (mkResponse (msg_id m) None (Some MissingParameter))].
Proof.
  intros Hm. apply missing_field_true in Hm.
  unfold run, onmessage. rewrite Hm. reflexivity.
Qed.

(** A command of a known kind with its required fields is answered
    exactly once, under its own identity, whatever the storage layer does. *)
Lemma run_known_responds faults m f c :
  ~ missing_field m ->
  msg_command m = Some c -> known_command c ->
  exists r, responses (trace (run faults m f)) = [r] /\
            exactly_one_set r /\ resp_id r = msg_id m.
Proof.
  intros Hm Hc K.
  destruct (run_present faults m f Hm) as
    [(e & -> & _) | (_ & _ & evs & c' & Hc' & -> & _ & _ & Hr)].
  - eexists. split; [reflexivity |]. split; [right; cbn; eauto | reflexivity].
  - rewrite Hc in Hc'. injection Hc' as <-.
    destruct Hr as [(r & Hr & _ & Hx & Hi) | (Hk & _)]; [| contradiction].
    exists r. split; [| split; assumption].
    change (ECreateSyncAccessHandle :: evs ++ [EClose])
      with ([ECreateSyncAccessHandle] ++ evs ++ [EClose]).
    rewrite !responses_app, Hr. reflexivity.
Qed.

(** C9: a command message in which [id], [command] or [fileHandle] is
    missing is answered with a single response whose [error] is set and
    whose [result] is not, and nothing else happens: the file is left as it
    was and no access handle is requested. *)
Theorem C9_missing_field_rejected faults m f :
  missing_field m ->
  run faults m f =
    mkWorld f false
            [EPostMessage (mkResponse (msg_id m) None (Some MissingParameter))]
  /\ (exists r, responses (trace (run faults m f)) = [r] /\
                resp_result r = None /\ is_Some (resp_error r))
  /\ count is_acquire (trace (run faults m f)) = 0%nat.
Proof.
  intros Hm. rewrite (run_missing faults m f Hm). cbn.
  split; [reflexivity |]. split; [| reflexivity].
  eexists. split; [reflexivity |]. cbn. eauto.
Qed.

Lemma C9_witness :
  missing_field (mkMessage None (Some "getSize"%string) None None
                           (Some "notes.txt"%string)) /\
  count is_acquire
        (trace (run no_faults
                    (mkMessage None (Some "getSize"%string) None None
                               (Some "notes.txt"%string))
                    sample_file)) = 0%nat.
Proof.
  split.
  - left. reflexivity.
  - apply (C9_missing_field_rejected no_faults
             (mkMessage None (Some "getSize"%string) None None
                        (Some "notes.txt"%string)) sample_file).
    left. reflexivity.
Defined.

(** The [default] branch of the [switch] posts nothing.  It is taken for a
    [command] that is none of the four of the command schema, which the
    main thread never sends. *)
Lemma command_outside_the_schema_is_not_answered :
  ~ responds_once no_faults (sample_message "sync" None) sample_file.
Proof.
  intros (r & H & _). vm_compute in H. discriminate H.
Qed.

(** C5: for every command message - one whose command is one of getSize,
    read, truncate and write, the four kinds of the command schema, or one
    that lacks a required field - and whatever the file and the storage
    layer do, processing ends with exactly one response posted, and
    exactly one of its [result] and [error] is set. *)
Theorem C5_one_response_for_known_commands faults m f :
  missing_field m \/ (exists c, msg_command m = Some c /\ known_command c) ->
  responds_once faults m f.
Proof.
  intros H. unfold responds_once.
  destruct (decide (missing_str (msg_id m) || missing_str (msg_command m)
                    || missing (msg_fileHandle m) = true)) as [Hm|Hm].
  - apply missing_field_true in Hm. rewrite (run_missing faults m f Hm). cbn.
    eexists. split; [reflexivity |]. right. cbn. eauto.
  - rewrite <- missing_field_true in Hm.
    destruct H as [H|(c & Hc & K)]; [contradiction |].
    destruct (run_known_responds faults m f c Hm Hc K) as (r & Hr & Hx & _).
    exists r. split; assumption.
Qed.

Lemma C5_witness :
  responds_once no_faults (sample_message "read" None) sample_file.
Proof.
  apply C5_one_response_for_known_commands.
  right. exists "read"%string. split; [reflexivity |].
  right. left. reflexivity.
Defined.

(** C3, as stated, fails: for a plain getSize command the response is
    posted inside the [try] block and the handle is closed afterwards, in
    the [finally] block. *)
Lemma C3_counterexample :
  ~ closed_once_before_response
      (trace (run no_faults (sample_message "getSize" None) sample_file)).
Proof.
  intros [_ H]. specialize (H 3%nat 2%nat eq_refl eq_refl). lia.
Qed.

(** C3 (amended): whenever the worker acquires the access handle, and
    whatever the storage layer does afterwards, the handle is acquired once
    and closed exactly once, and the close is the last action of the
    handler: it comes after the response message has been posted. *)
Theorem C3_handle_closed_once_after_response faults m f :
  In ECreateSyncAccessHandle (trace (run faults m f)) ->
  exists pre,
    trace (run faults m f) = pre ++ [EClose] /\
    count is_close pre = 0%nat /\
    count is_acquire pre = 1%nat /\
    count is_close (trace (run faults m f)) = 1%nat /\
    (forall r, In (EPostMessage r) (trace (run faults m f)) ->
               In (EPostMessage r) pre).
Proof.
  intros Hin.
  destruct (decide (missing_str (msg_id m) || missing_str (msg_command m)
                    || missing (msg_fileHandle m) = true)) as [Hm|Hm].
  { apply missing_field_true in Hm. rewrite (run_missing faults m f Hm) in Hin.
    cbn in Hin. destruct Hin as [Hin|[]]. discriminate Hin. }
  rewrite <- missing_field_true in Hm.
  destruct (run_present faults m f Hm) as
    [(e & Ht & _) | (_ & _ & evs & c & _ & Ht & Hcl & Hac & _)].
  { rewrite Ht in Hin. cbn in Hin. destruct Hin as [Hin|[]]. discriminate Hin. }
  rewrite Ht. exists (ECreateSyncAccessHandle :: evs).
  split; [reflexivity |].
  rewrite !count_cons, !count_app, Hcl, Hac.
  do 3 (split; [reflexivity |]).
  intros r [Hr | Hr]; [discriminate Hr |].
  apply in_app_iff in Hr as [Hr | [Hr | []]]; [now right | discriminate Hr].
Qed.

(** Without a handle there is nothing to close, and nothing is closed. *)
Lemma no_close_without_handle faults m f :
  ~ In ECreateSyncAccessHandle (trace (run faults m f)) ->
  count is_close (trace (run faults m f)) = 0%nat.
Proof.
  intros Hnot.
  destruct (decide (missing_str (msg_id m) || missing_str (msg_command m)
                    || missing (msg_fileHandle m) = true)) as [Hm|Hm].
  { apply missing_field_true in Hm. rewrite (run_missing faults m f Hm).
    reflexivity. }
  rewrite <- missing_field_true in Hm.
  destruct (run_present faults m f Hm) as
    [(e & -> & _) | (_ & _ & evs & c & _ & Ht & _)]; [reflexivity |].
  exfalso. apply Hnot. rewrite Ht. left. reflexivity.
Qed.

Lemma C3_witness :
  In ECreateSyncAccessHandle
     (trace (run no_faults (sample_message "getSize" None) sample_file)) /\
  exists pre,
    trace (run no_faults (sample_message "getSize" None) sample_file)
      = pre ++ [EClose] /\
    count is_close pre = 0%nat /\
    count is_acquire pre = 1%nat /\
    count is_close
      (trace (run no_faults (sample_message "getSize" None) sample_file))
      = 1%nat /\
    (forall r,
        In (EPostMessage r)
           (trace (run no_faults (sample_message "getSize" None) sample_file)) ->
        In (EPostMessage r) pre).
Proof.
  split.
  - vm_compute. left. reflexivity.
  - apply (C3_handle_closed_once_after_response
             no_faults (sample_message "getSize" None) sample_file).
    vm_compute. left. reflexivity.
Defined.

Lemma missing_str_nonempty (id : string) :
  id <> EmptyString -> missing_str (Some id) = false.
Proof. intros H. unfold missing_str. destruct (decide (id = EmptyString)); congruence. Qed.

(** With its three required fields present the handler goes straight to
    the [try] statement. *)
Lemma onmessage_present faults m id c fh :
  msg_id m = Some id -> id <> EmptyString ->
  msg_command m = Some c -> c <> EmptyString ->
  msg_fileHandle m = Some fh ->
  onmessage faults m =
  try_catch_finally
    (createSyncAccessHandle faults ;;;
     set_accessHandle ;;;
     dispatch faults (Some id) c (msg_data m)
              (match msg_option m with Some o => o | None => no_options end))
    (fun error => respond (Some id) None (Some error))
    (h <- get_accessHandle ;; if h then close else ret tt).
Proof.
  intros Hi Hin Hc Hcn Hf. unfold onmessage.
  rewrite Hi, Hc, Hf, !missing_str_nonempty by assumption. reflexivity.
Qed.

Lemma length_zeros (n : nat) : length (zeros n) = n.
Proof. apply repeat_length. Qed.

(** A read command with a valid offset posts the tail of the file. *)
Lemma run_read_valid (f : File) (id : string) (fh : FileHandle) (k : Z)
      (sz fl : value) :
  locked f = false ->
  id <> EmptyString ->
  0 <= k <= Z.of_nat (length (contents f)) ->
  responses (trace (run no_faults
                        (mkMessage (Some id) (Some "read"%string) None
                                   (Some (mkOptions (VInt k) sz fl)) (Some fh)) f))
    = [mkResponse (Some id)
                  (Some (RBuf (skipn (Z.to_nat k) (contents f)))) None].
Proof.
  intros Hl Hid Hk.
  unfold run.
  rewrite (onmessage_present _ _ id "read" fh) by (reflexivity || easy).
  cbn [msg_id msg_command msg_data msg_option msg_fileHandle].
  unfold try_catch_finally. unfold bind at 1.
  rewrite createSyncAccessHandle_run. cbn [file accessHandle trace].
  rewrite Hl. cbn [no_faults].
  unfold_ops. cbn [no_faults file accessHandle trace app at_ or_zero].
  cbn [default from_option].
  repeat (case_decide; try congruence).
  cbn [no_faults file accessHandle trace app at_].
  assert (Hoff : match to_number (or_zero (VInt k)) with
                 | Some z => z
                 | None => 0
                 end = k).
  { unfold or_zero, truthy. destruct (Z.eqb_spec k 0); cbn; lia. }
  rewrite Hoff.
  destruct (Z.ltb_spec (Z.of_nat (length (contents f)) - k) 0) as [Hneg|_];
    [lia |].
  cbn [to_offset to_number].
  destruct (Z.leb_spec 0 k) as [_|Hneg]; [| lia].
  cbn [no_faults file accessHandle trace app fst snd].
  rewrite length_zeros.
  replace (Z.to_nat (Z.of_nat (length (contents f)) - k))
    with (length (skipn (Z.to_nat k) (contents f)))
    by (rewrite length_skipn; lia).
  rewrite firstn_all.
  rewrite (skipn_all2 (zeros _)) by (rewrite length_zeros; lia).
  rewrite app_nil_r. reflexivity.
Qed.

(** C7: on a file of size S that can be opened, and with no failure of the
    storage layer, a read command with [at = k], 0 <= k <= S, posts as its
    result a buffer of length S - k holding the last S - k bytes of the
    file; a read with no option object, or with an option object without
    [at], runs exactly as a read with [at = 0]. *)
Theorem C7_read_offset (f : File) (id : string) (fh : FileHandle) (k : Z)
        (sz fl : value) :
  locked f = false ->
  id <> EmptyString ->
  0 <= k <= Z.of_nat (length (contents f)) ->
  let read_msg o := mkMessage (Some id) (Some "read"%string) None o (Some fh) in
  responses (trace (run no_faults (read_msg (Some (mkOptions (VInt k) sz fl))) f))
    = [mkResponse (Some id)
                  (Some (RBuf (skipn (Z.to_nat k) (contents f)))) None]
  /\ Z.of_nat (length (skipn (Z.to_nat k) (contents f)))
     = Z.of_nat (length (contents f)) - k
  /\ (forall faults,
         run faults (read_msg None) f
         = run faults (read_msg (Some (mkOptions (VInt 0) VUndef VUndef))) f)
  /\ (forall faults,
         run faults (read_msg (Some (mkOptions VUndef sz fl))) f
         = run faults (read_msg (Some (mkOptions (VInt 0) sz fl))) f).
Proof.
  intros Hl Hid Hk read_msg.
  split; [exact (run_read_valid f id fh k sz fl Hl Hid Hk) |].
  split; [rewrite length_skipn; lia | split; reflexivity].
Qed.

Lemma C7_witness :
  let f := sample_file in
  let read_msg o :=
    mkMessage (Some "/notes.txt_read"%string) (Some "read"%string) None o
              (Some "notes.txt"%string) in
  (locked f = false /\ "/notes.txt_read"%string <> EmptyString /\
   0 <= 1 <= Z.of_nat (length (contents f))) /\
  responses (trace (run no_faults
                        (read_msg (Some (mkOptions (VInt 1) VUndef VUndef))) f))
  = [mkResponse (Some "/notes.txt_read"%string)
                (Some (RBuf ["b"; "c"; "d"]%byte)) None].
Proof.
  cbv zeta. split.
  - split; [reflexivity | split; [discriminate | cbn; lia]].
  - apply (C7_read_offset sample_file "/notes.txt_read" "notes.txt" 1
                          VUndef VUndef);
      [reflexivity | discriminate | cbn; lia].
Defined.

Ltac enter_try id c fh :=
  unfold run;
  rewrite (onmessage_present _ _ id c fh) by (reflexivity || easy);
  cbn [msg_id msg_command msg_data msg_option msg_fileHandle];
  unfold try_catch_finally; unfold bind at 1;
  rewrite createSyncAccessHandle_run; cbn [file accessHandle trace];
  match goal with H : locked _ = false |- _ => rewrite H end;
  cbn [no_faults];
  unfold_ops;
  cbn [no_faults file accessHandle trace app at_ size flush default from_option];
  repeat (case_decide; try congruence);
  cbn [no_faults file accessHandle trace app at_ size flush].

Lemma length_resize (n : nat) (bs : list byte) : length (resize n bs) = n.
Proof.
  unfold resize. rewrite length_app, length_firstn, length_zeros. lia.
Qed.

(** A truncate command with a valid size, on a file that can be opened and
    a storage layer that does not fail. *)
Lemma run_truncate_valid f id fh a T fl :
  locked f = false -> id <> EmptyString -> 0 <= T ->
  run no_faults
      (mkMessage (Some id) (Some "truncate"%string) None
                 (Some (mkOptions a (VInt T) fl)) (Some fh)) f
  = mkWorld
      (mkFile (resize (Z.to_nat T) (contents f))
              (if truthy fl then resize (Z.to_nat T) (contents f) else durable f)
              false)
      true
      ([ECreateSyncAccessHandle; ETruncate T]
         ++ (if truthy fl then [EFlush] else [])
         ++ [EPostMessage (mkResponse (Some id) (Some (RNum T)) None); EClose]).
Proof.
  intros Hl Hid HT. enter_try id "truncate"%string fh.
  destruct (Z.leb_spec 0 T) as [_|]; [| lia].
  destruct (truthy fl); cbn; rewrite ?Hl; reflexivity.
Qed.

(** A truncate command without a valid size. *)
Lemma run_truncate_invalid f id fh o :
  locked f = false -> id <> EmptyString ->
  (forall T, size (match o with Some x => x | None => no_options end) = VInt T ->
             T < 0) ->
  run no_faults
      (mkMessage (Some id) (Some "truncate"%string) None o (Some fh)) f
  = mkWorld f true
      [ECreateSyncAccessHandle;
       EPostMessage (mkResponse (Some id) (Some (RNum 0)) None); EClose].
Proof.
  intros Hl Hid Hsz. enter_try id "truncate"%string fh.
  destruct (size _) as [| | b | T] eqn:E; try reflexivity.
  specialize (Hsz T eq_refl).
  destruct (Z.leb_spec 0 T) as [|_]; [lia | reflexivity].
Qed.

Lemma run_getSize f id fh :
  locked f = false -> id <> EmptyString ->
  run no_faults
      (mkMessage (Some id) (Some "getSize"%string) None None (Some fh)) f
  = mkWorld f true
      [ECreateSyncAccessHandle; EGetSize;
       EPostMessage (mkResponse (Some id)
                       (Some (RNum (Z.of_nat (length (contents f))))) None);
       EClose].
Proof.
  intros Hl Hid. enter_try id "getSize"%string fh. reflexivity.
Qed.

(** C8: on a file that can be opened, and with no failure of the storage
    layer, a truncate command with an integer [size = T >= 0] posts T as its
    result and leaves the file with T bytes, so that a following getSize
    command posts T; with a truthy [flush] the new contents are flushed to
    disk, and the flush comes before the response is posted.  A truncate
    command whose [size] is absent or is not a number >= 0 leaves the file
    as it was and posts 0. *)
Theorem C8_truncate_semantics (f : File) (id id' : string) (fh : FileHandle) :
  locked f = false -> id <> EmptyString -> id' <> EmptyString ->
  let truncate_msg o :=
    mkMessage (Some id) (Some "truncate"%string) None o (Some fh) in
  let getSize_msg :=
    mkMessage (Some id') (Some "getSize"%string) None None (Some fh) in
  (forall T a fl, 0 <= T ->
     let w := run no_faults (truncate_msg (Some (mkOptions a (VInt T) fl))) f in
     responses (trace w) = [mkResponse (Some id) (Some (RNum T)) None] /\
     Z.of_nat (length (contents (file w))) = T /\
     responses (trace (run no_faults getSize_msg (file w)))
       = [mkResponse (Some id') (Some (RNum T)) None] /\
     (truthy fl = true ->
      durable (file w) = contents (file w) /\
      exists i j, index_of is_flush (trace w) = Some i /\
                  index_of is_post (trace w) = Some j /\ (i < j)%nat))
  /\
  (forall o,
     (forall T, size (match o with Some x => x | None => no_options end) = VInt T ->
                T < 0) ->
     let w := run no_faults (truncate_msg o) f in
     file w = f /\
     responses (trace w) = [mkResponse (Some id) (Some (RNum 0)) None]).
Proof.
  intros Hl Hid Hid' truncate_msg getSize_msg. split.
  - intros T a fl HT w. subst w truncate_msg getSize_msg. cbv beta.
    rewrite (run_truncate_valid f id fh a T fl Hl Hid HT).
    cbn [file trace contents durable].
    assert (Hlen : Z.of_nat (length (resize (Z.to_nat T) (contents f))) = T)
      by (rewrite length_resize; lia).
    split; [destruct (truthy fl); reflexivity |].
    split; [exact Hlen |].
    split.
    + rewrite run_getSize by (assumption || reflexivity).
      cbn. rewrite Hlen. reflexivity.
    + intros ->. split; [reflexivity |].
      exists 2%nat, 3%nat. cbn. repeat split; lia.
  - intros o Ho w. subst w truncate_msg. cbv beta.
    rewrite (run_truncate_invalid f id fh o Hl Hid Ho). split; reflexivity.
Qed.

Lemma C8_witness :
  (locked sample_file = false /\ "/notes.txt_truncate"%string <> EmptyString /\
   "/notes.txt_getSize"%string <> EmptyString) /\
  let w := run no_faults
               (mkMessage (Some "/notes.txt_truncate"%string)
                          (Some "truncate"%string) None
                          (Some (mkOptions VUndef (VInt 6) (VBool true)))
                          (Some "notes.txt"%string)) sample_file in
  responses (trace w)
    = [mkResponse (Some "/notes.txt_truncate"%string) (Some (RNum 6)) None] /\
  Z.of_nat (length (contents (file w))) = 6.
Proof.
  split.
  - split; [reflexivity | split; discriminate].
  - destruct (C8_truncate_semantics sample_file "/notes.txt_truncate"
                "/notes.txt_getSize" "notes.txt")
      as [Hvalid _]; [reflexivity | discriminate | discriminate |].
    destruct (Hvalid 6 VUndef (VBool true)) as (H1 & H2 & _); [lia |].
    split; [exact H1 | exact H2].
Defined.

(** * Properties of the main thread *)

Lemma set_handler_id (s : State) : set_handler (workerResponseHandler s) s = s.
Proof. destruct s; reflexivity. Qed.

Lemma set_handler_twice h h' (s : State) :
  set_handler h' (set_handler h s) = set_handler h' s.
Proof. reflexivity. Qed.

Lemma waiters_app (ps qs : list PromiseId) :
  waiters (ps ++ qs) = waiters ps ++ waiters qs.
Proof. unfold waiters. apply flat_map_app. Qed.

(** The loop of [handleWorkerResponse] calls one callback per waiter, all
    with the same argument. *)
Lemma fan_out_waiters (data : Response) (ps : list PromiseId) :
  fan_out (waiters ps) data = (map (deliver data) ps, false).
Proof.
  induction ps as [|p ps IH]; [reflexivity |].
  cbn [waiters flat_map app] in *. cbn [fan_out]. fold (waiters ps).
  unfold waiters in *. rewrite IH. unfold deliver.
  destruct (resp_error data); reflexivity.
Qed.

(** [startWorker] posts exactly one message and leaves the handler table,
    the parked bodies and the callback log alone. *)
Lemma startWorker_spec (m : Message) (s : State) :
  let s' := startWorker m s in
  posted s' = posted s ++ [(next_worker s, m)] /\
  workerResponseHandler s' = workerResponseHandler s /\
  suspended s' = suspended s /\ calls s' = calls s /\
  workingDirectory s' = workingDirectory s /\ uncaught s' = uncaught s.
Proof.
  unfold startWorker, next_worker.
  destruct (pop (idleWorkers s)) as [[w|] idle']; cbn; repeat split; reflexivity.
Qed.

(** A response whose identity is registered is fanned out to every waiter
    of the entry, then the entry is deleted. *)
Lemma worker_onmessage_registered w data id ps (s : State) :
  resp_id data = Some id ->
  workerResponseHandler s !! id = Some (waiters ps) ->
  let s' := worker_onmessage w data s in
  calls s' = calls s ++ map (deliver data) ps /\
  workerResponseHandler s' = delete id (workerResponseHandler s) /\
  posted s' = posted s /\ suspended s' = suspended s /\
  uncaught s' = uncaught s /\ workingDirectory s' = workingDirectory s.
Proof.
  intros Hid Hh. unfold worker_onmessage, handleWorkerResponse.
  rewrite Hid, Hh, fan_out_waiters. cbn. repeat split; reflexivity.
Qed.

Section Shared.

(** What [getFileSize] and [readFile] have in common: the input that
    stands for a call, the suffix of its identity, the body it parks, and
    the message that body posts. *)
Variable X : Type.
Variable call : string -> X -> PromiseId -> Input.
Variable suffix : string.
Variable parked : string -> X -> Suspended.
Variable message : string -> X -> FileHandle -> Message.

Hypothesis step_call : forall f x p s,
    step s (call f x p)
    = shared_call (request_id s f suffix)
                  (parked (request_id s f suffix) x) p s.

Hypothesis resume_parked : forall id x fh s,
    resume (parked id x) (Ok fh) s = startWorker (message id x fh) s.

(** Calls that find the entry present only lengthen its waiter list. *)
Lemma shared_calls_join f xps : forall s qs,
    workerResponseHandler s !! request_id s f suffix = Some (waiters qs) ->
    steps s (calls_of call f xps)
    = set_handler (<[request_id s f suffix := waiters (qs ++ map snd xps)]>
                     (workerResponseHandler s)) s.
Proof.
  induction xps as [|[x p] xps IH]; intros s qs Hh.
  - cbn. rewrite app_nil_r, insert_id by exact Hh.
    symmetry. apply set_handler_id.
  - cbn [calls_of map steps fold_left fst snd].
    rewrite step_call. unfold shared_call at 1. rewrite Hh.
    set (id := request_id s f suffix).
    set (s1 := set_handler _ s).
    assert (Hid : request_id s1 f suffix = id) by reflexivity.
    specialize (IH s1 (qs ++ [p])).
    unfold steps, calls_of in IH. rewrite IH.
    + rewrite Hid. subst s1. cbn [workerResponseHandler set_handler].
      rewrite set_handler_twice, insert_insert_eq, <- app_assoc. reflexivity.
    + rewrite Hid. subst s1. cbn [workerResponseHandler set_handler].
      rewrite lookup_insert_eq, waiters_app. reflexivity.
Qed.

(** Coalescing, for either shareable method: a first call that finds no
    entry, further calls before and after its file handle arrives, then
    the response of the worker. *)
Lemma shared_coalesce f x p xps1 xps2 fh data (s : State) :
  let id := request_id s f suffix in
  let ps := p :: map snd xps1 ++ map snd xps2 in
  workerResponseHandler s !! id = None ->
  resp_id data = Some id ->
  let s1 := steps s (call f x p :: calls_of call f xps1
                       ++ Settle (length (suspended s)) (Ok fh)
                       :: calls_of call f xps2) in
  let s2 := step s1 (WorkerMessage (next_worker s) data) in
  (posted s1 = posted s ++ [(next_worker s, message id x fh)] /\
   workerResponseHandler s1 !! id = Some (waiters ps) /\
   calls s1 = calls s) /\
  (posted s2 = posted s1 /\
   calls s2 = calls s ++ map (deliver data) ps /\
   workerResponseHandler s2 = workerResponseHandler s).
Proof.
  intros id ps Hnone Hdata s1 s2.
  (* the first call registers and parks *)
  set (sa := step s (call f x p)).
  assert (Ha : sa = set_suspended (suspended s ++ [parked id x])
                      (set_handler (<[id := waiters [p]]> (workerResponseHandler s)) s)).
  { subst sa. rewrite step_call. unfold shared_call. fold id.
    rewrite Hnone. reflexivity. }
  (* the calls that arrive before the file handle *)
  set (sb := steps sa (calls_of call f xps1)).
  assert (Hb : sb = set_suspended (suspended s ++ [parked id x])
                      (set_handler (<[id := waiters (p :: map snd xps1)]>
                                      (workerResponseHandler s)) s)).
  { subst sb. rewrite (shared_calls_join f xps1 sa [p]).
    - rewrite Ha. cbn [request_id workingDirectory set_suspended set_handler
                         workerResponseHandler].
      fold (request_id s f suffix). fold id.
      rewrite insert_insert_eq. reflexivity.
    - rewrite Ha. cbn [request_id workingDirectory set_suspended set_handler
                         workerResponseHandler].
      fold (request_id s f suffix). fold id.
      apply lookup_insert_eq. }
  (* the parked body resumes and starts a worker *)
  set (sc := step sb (Settle (length (suspended s)) (Ok fh))).
  assert (Hc : sc = startWorker (message id x fh)
                      (set_handler (<[id := waiters (p :: map snd xps1)]>
                                      (workerResponseHandler s)) s)).
  { subst sc. rewrite Hb. cbn [step suspended set_suspended set_handler].
    rewrite lookup_app_r, Nat.sub_diag by lia. cbn [lookup list_lookup].
    rewrite resume_parked. f_equal.
    change (suspended s ++ [parked id x])
      with (suspended s ++ parked id x :: []).
    rewrite delete_middle, app_nil_r.
    destruct s; reflexivity. }
  pose proof (startWorker_spec (message id x fh)
                (set_handler (<[id := waiters (p :: map snd xps1)]>
                                (workerResponseHandler s)) s)) as Hsw.
  rewrite <- Hc in Hsw. cbv zeta in Hsw.
  cbn [posted workerResponseHandler suspended calls workingDirectory
         uncaught set_handler] in Hsw.
  change (next_worker (set_handler _ s)) with (next_worker s) in Hsw.
  destruct Hsw as (Hp & Hh & Hsus & Hcalls & Hwd & _).
  (* the calls that arrive while the worker runs *)
  assert (Hidc : request_id sc f suffix = id).
  { unfold request_id. rewrite Hwd. reflexivity. }
  assert (H1 : s1 = set_handler (<[id := waiters ps]> (workerResponseHandler sc)) sc).
  { subst s1. unfold steps. cbn [fold_left]. fold sa.
    rewrite fold_left_app. fold (steps sa (calls_of call f xps1)). fold sb.
    cbn [fold_left]. fold sc.
    fold (steps sc (calls_of call f xps2)).
    rewrite (shared_calls_join f xps2 sc (p :: map snd xps1)).
    - rewrite Hidc. subst ps. rewrite app_comm_cons. reflexivity.
    - rewrite Hidc, Hh. apply lookup_insert_eq. }
  assert (Hs1 : posted s1 = posted s ++ [(next_worker s, message id x fh)] /\
                workerResponseHandler s1 !! id = Some (waiters ps) /\
                calls s1 = calls s).
  { rewrite H1. cbn [posted calls workerResponseHandler set_handler].
    rewrite lookup_insert_eq. auto. }
  split; [exact Hs1 |].
  destruct Hs1 as (Hp1 & Hh1 & Hc1).
  destruct (worker_onmessage_registered (next_worker s) data id ps s1 Hdata Hh1)
    as (Hc2 & Hh2 & Hp2 & _).
  subst s2. cbn [step]. rewrite Hc2, Hh2, Hp2, Hc1.
  repeat split.
  rewrite H1. cbn [workerResponseHandler set_handler].
  rewrite Hh, delete_insert_eq, delete_insert_eq.
  apply delete_id. exact Hnone.
Qed.

End Shared.

Lemma request_id_nonempty (s : State) (f suffix : string) :
  request_id s f suffix <> EmptyString.
Proof.
  unfold request_id. destruct (workingDirectory s); discriminate.
Qed.

(** The command a shareable method posts is answered by the worker exactly
    once, under the identity it was posted with. *)
Lemma shareable_message_answered (k : Shareable) (s : State) (f : string)
      (o : option Options) (fh : FileHandle) faults file0 :
  let id := request_id s f (shareable_suffix k) in
  exists r, responses (trace (run faults (shareable_message k id o fh) file0)) = [r]
            /\ resp_id r = Some id.
Proof.
  intros id.
  assert (Hm : ~ missing_field (shareable_message k id o fh)).
  { rewrite missing_field_true. apply not_true_iff_false.
    destruct k; cbn [shareable_message msg_id msg_command msg_fileHandle missing];
      rewrite !missing_str_nonempty by (apply request_id_nonempty || discriminate);
      reflexivity. }
  destruct k.
  - destruct (run_known_responds faults _ file0 "getSize" Hm eq_refl)
      as (r & Hr & _ & Hi); [left; reflexivity |]. eauto.
  - destruct (run_known_responds faults _ file0 "read" Hm eq_refl)
      as (r & Hr & _ & Hi); [right; left; reflexivity |]. eauto.
Qed.

(** The same calls when the file lookup of the first one is rejected: the
    rejection is raised inside the promise executor, where nobody handles
    it; the entry stays, and every call, earlier or later, is only a
    waiter of it. *)
Lemma shared_lookup_rejected (k : Shareable) (s : State) (f : string)
      (o : option Options) (p : PromiseId) (e : Error)
      (ops1 ops2 : list (option Options * PromiseId)) :
  let id := request_id s f (shareable_suffix k) in
  workerResponseHandler s !! id = None ->
  steps s (shareable_call k f o p
             :: calls_of (shareable_call k) f ops1
             ++ Settle (length (suspended s)) (Throw e)
             :: calls_of (shareable_call k) f ops2)
  = add_uncaught e
      (set_handler (<[id := waiters (p :: map snd ops1 ++ map snd ops2)]>
                      (workerResponseHandler s)) s).
Proof.
  intros id Hnone.
  assert (Hcall : forall f x p s,
             step s (shareable_call k f x p)
             = shared_call (request_id s f (shareable_suffix k))
                 (shareable_parked k (request_id s f (shareable_suffix k)) x)
                 p s)
    by (intros; destruct k; reflexivity).
  pose proof (shared_calls_join (option Options) (shareable_call k)
                (shareable_suffix k) (shareable_parked k) Hcall) as Hjoin.
  set (sa := step s (shareable_call k f o p)).
  assert (Ha : sa = set_suspended (suspended s ++ [shareable_parked k id o])
                      (set_handler (<[id := waiters [p]]>
                                      (workerResponseHandler s)) s)).
  { subst sa. rewrite Hcall. unfold shared_call. fold id.
    rewrite Hnone. reflexivity. }
  set (sb := steps sa (calls_of (shareable_call k) f ops1)).
  assert (Hb : sb = set_suspended (suspended s ++ [shareable_parked k id o])
                      (set_handler (<[id := waiters (p :: map snd ops1)]>
                                      (workerResponseHandler s)) s)).
  { subst sb. rewrite (Hjoin f ops1 sa [p]).
    - rewrite Ha. cbn [request_id workingDirectory set_suspended set_handler
                         workerResponseHandler].
      fold (request_id s f (shareable_suffix k)). fold id.
      rewrite insert_insert_eq. reflexivity.
    - rewrite Ha. cbn [request_id workingDirectory set_suspended set_handler
                         workerResponseHandler].
      fold (request_id s f (shareable_suffix k)). fold id.
      apply lookup_insert_eq. }
  set (sc := step sb (Settle (length (suspended s)) (Throw e))).
  assert (Hc : sc = add_uncaught e
                      (set_handler (<[id := waiters (p :: map snd ops1)]>
                                      (workerResponseHandler s)) s)).
  { subst sc. rewrite Hb. cbn [step suspended set_suspended set_handler].
    rewrite lookup_app_r, Nat.sub_diag by lia. cbn [lookup list_lookup].
    change (suspended s ++ [shareable_parked k id o])
      with (suspended s ++ shareable_parked k id o :: []).
    rewrite delete_middle, app_nil_r.
    destruct k, s; reflexivity. }
  unfold steps. cbn [fold_left]. fold sa.
  rewrite fold_left_app. fold (steps sa (calls_of (shareable_call k) f ops1)).
  fold sb. cbn [fold_left]. fold sc.
  fold (steps sc (calls_of (shareable_call k) f ops2)).
  rewrite (Hjoin f ops2 sc (p :: map snd ops1)).
  - rewrite Hc. cbn [request_id workingDirectory add_uncaught set_handler
                       workerResponseHandler].
    fold (request_id s f (shareable_suffix k)). fold id.
    rewrite insert_insert_eq, app_comm_cons. reflexivity.
  - rewrite Hc. cbn [request_id workingDirectory add_uncaught set_handler
                       workerResponseHandler].
    fold (request_id s f (shareable_suffix k)). fold id.
    apply lookup_insert_eq.
Qed.

(** C1: the claim fails on the code when the file lookup of the first
    call is rejected (the file does not exist).  K = 1 + |ops1| calls of
    getFileSize (or of readFile) for one file, issued on a fresh object
    before the lookup settles, and any number of later calls [ops2]: no
    command is ever posted, so there is no execution whose outcome could
    be delivered; the rejection is raised where nobody handles it; no
    callback of any waiter is invoked, neither with a result nor with the
    error; nothing is left parked that could still start an execution; and
    the entry stays in the table, holding every one of the waiters. *)
Theorem C1_rejected_lookup_leaves_waiters_dangling (k : Shareable)
        (f : string) (o : option Options) (p : PromiseId) (e : Error)
        (ops1 ops2 : list (option Options * PromiseId)) :
  let id := request_id init f (shareable_suffix k) in
  let ps := p :: map snd ops1 ++ map snd ops2 in
  let s' := steps init (shareable_call k f o p
                          :: calls_of (shareable_call k) f ops1
                          ++ Settle 0%nat (Throw e)
                          :: calls_of (shareable_call k) f ops2) in
  executions id s' = [] /\ posted s' = [] /\
  uncaught s' = [e] /\
  calls s' = [] /\ (forall q, In q ps -> ~ settled q s') /\
  suspended s' = [] /\
  workerResponseHandler s' !! id = Some (waiters ps).
Proof.
  intros id ps s'.
  assert (H : s' = add_uncaught e
                     (set_handler (<[id := waiters ps]> ∅) init)).
  { subst s'. apply (shared_lookup_rejected k init f o p e ops1 ops2).
    apply lookup_empty. }
  rewrite H. cbn [executions posted uncaught calls suspended
                   workerResponseHandler add_uncaught set_handler init
                   List.filter app].
  repeat split; try reflexivity.
  - intros q _ [a [Hin | Hin]]; destruct Hin.
  - apply lookup_insert_eq.
Qed.

(** The failing input of C1 with K = 2 and one later call: a file that does
    not exist. *)
Lemma rejected_lookup_example :
  let s' := steps init [CallGetFileSize "gone.txt" 1%nat;
                        CallGetFileSize "gone.txt" 2%nat;
                        Settle 0%nat (Throw NotFoundError);
                        CallGetFileSize "gone.txt" 3%nat] in
  posted s' = [] /\ calls s' = [] /\ suspended s' = [] /\
  workerResponseHandler s' !! "/gone.txt_getSize"%string
  = Some (waiters [1; 2; 3]%nat).
Proof. cbv zeta. repeat split; reflexivity. Qed.

(** X27: coalescing when the file lookup of the first call is fulfilled.
    K = 1 + |ops1| + |ops2| calls of getFileSize (or of readFile) for one
    file, the first finding no pending entry, [ops1] arriving before its
    file handle does and [ops2] while the worker runs, post exactly one
    command to a worker, which the worker answers exactly once; when that
    response arrives every one of the K waiters has one callback invoked,
    all with the same argument (the result, or the error if the response
    carries one), and the entry is gone from the table. *)
Theorem coalescing_when_lookup_resolves (k : Shareable) (s : State) (f : string)
        (fh : FileHandle) (o : option Options) (p : PromiseId)
        (ops1 ops2 : list (option Options * PromiseId)) (data : Response) :
  let id := request_id s f (shareable_suffix k) in
  let ps := p :: map snd ops1 ++ map snd ops2 in
  workerResponseHandler s !! id = None ->
  resp_id data = Some id ->
  let s1 := steps s (shareable_call k f o p
                       :: calls_of (shareable_call k) f ops1
                       ++ Settle (length (suspended s)) (Ok fh)
                       :: calls_of (shareable_call k) f ops2) in
  let s2 := step s1 (WorkerMessage (next_worker s) data) in
  posted s1 = posted s ++ [(next_worker s, shareable_message k id o fh)] /\
  (forall faults file0,
      exists r, responses (trace (run faults (shareable_message k id o fh) file0))
                = [r] /\ resp_id r = Some id) /\
  workerResponseHandler s1 !! id = Some (waiters ps) /\
  posted s2 = posted s1 /\
  calls s2 = calls s ++ map (deliver data) ps /\
  workerResponseHandler s2 !! id = None.
Proof.
  intros id ps Hnone Hdata s1 s2.
  pose proof (shared_coalesce (option Options) (shareable_call k)
                (shareable_suffix k) (shareable_parked k)
                (shareable_message k)) as H.
  specialize (H ltac:(intros; destruct k; reflexivity)
                ltac:(intros; destruct k; reflexivity)
                f o p ops1 ops2 fh data s Hnone Hdata).
  cbv zeta in H. destruct H as ((H1 & H1' & _) & H2 & H3 & H4).
  subst s1 s2 id ps. rewrite H4.
  split; [exact H1 |].
  split; [intros faults file0; apply shareable_message_answered |].
  auto.
Qed.

Lemma coalescing_when_lookup_resolves_witness :
  let s := init in
  let id := "/a.txt_getSize"%string in
  let data := mkResponse (Some id) (Some (RNum 4)) None in
  let s1 := steps s [CallGetFileSize "a.txt" 1%nat; CallGetFileSize "a.txt" 2%nat;
                     Settle 0%nat (Ok "a.txt"%string);
                     CallGetFileSize "a.txt" 3%nat] in
  let s2 := step s1 (WorkerMessage 0%nat data) in
  (workerResponseHandler s !! id = None /\ resp_id data = Some id) /\
  posted s1 = [(0%nat, mkMessage (Some id) (Some "getSize"%string) None None
                                 (Some "a.txt"%string))] /\
  (forall faults file0,
      exists r,
        responses (trace (run faults
                              (mkMessage (Some id) (Some "getSize"%string) None
                                         None (Some "a.txt"%string)) file0))
        = [r] /\ resp_id r = Some id) /\
  workerResponseHandler s1 !! id = Some (waiters [1; 2; 3]%nat) /\
  posted s2 = posted s1 /\
  calls s2 = [(Resolve 1%nat, ArgResult (Some (RNum 4)));
              (Resolve 2%nat, ArgResult (Some (RNum 4)));
              (Resolve 3%nat, ArgResult (Some (RNum 4)))] /\
  workerResponseHandler s2 !! id = None.
Proof.
  cbv zeta. split.
  - split; reflexivity.
  - apply (coalescing_when_lookup_resolves SizeQuery init "a.txt" "a.txt" None 1%nat
             [(None, 2%nat)] [(None, 3%nat)]
             (mkResponse (Some "/a.txt_getSize"%string) (Some (RNum 4)) None));
      reflexivity.
Defined.



Section Exclusive.

(** What [truncateFile] and [writeFile] have in common. *)
Variable X : Type.
Variable call : string -> X -> PromiseId -> Input.
Variable suffix : string.
Variable busy : string.
Variable parked : string -> X -> PromiseId -> Suspended.
Variable message : string -> X -> FileHandle -> Message.

Hypothesis step_call : forall f x p s,
    step s (call f x p)
    = match workerResponseHandler s !! request_id s f suffix with
      | Some _ => add_calls [(Reject p, ArgError (Busy busy))] s
      | None =>
          set_suspended
            (suspended s ++ [parked (request_id s f suffix) x p]) s
      end.

Hypothesis resume_parked : forall id x p fh s,
    resume (parked id x p) (Ok fh) s
    = let s1 := startWorker (message id x fh) s in
      set_handler (<[id := [Resolve p; Reject p]]> (workerResponseHandler s1)) s1.



End Exclusive.




(** C4 (evaluation of the code): two [writeFile] calls for one file made
    back to back both find the entry absent, because the first registers
    only after its [await]; both are parked, neither is rejected, two
    commands with the same identity are posted to two workers, and the
    second registration replaces the first.  The first response settles
    the second caller; the second response finds no entry and throws, its
    worker stays in the active list, and the first caller is never
    settled. *)
Theorem C4_exclusive_check_then_register_not_atomic :
  let w1 := CallWriteFile "notes.txt" (Some ["x"%byte]) None 1%nat in
  let w2 := CallWriteFile "notes.txt" (Some ["y"%byte]) None 2%nat in
  let id := "/notes.txt_write"%string in
  let s1 := step init w1 in
  let s2 := step s1 w2 in
  let s4 := steps s2 [Settle 0%nat (Ok "notes.txt"%string);
                      Settle 0%nat (Ok "notes.txt"%string)] in
  let s6 := steps s4 [WorkerMessage 0%nat (mkResponse (Some id) (Some (RNum 1)) None);
                      WorkerMessage 1%nat (mkResponse (Some id) (Some (RNum 1)) None)] in
  (workerResponseHandler init !! id = None /\
   workerResponseHandler s1 !! id = None) /\
  (length (suspended s2) = 2%nat /\ calls s2 = []) /\
  (map fst (executions id s4) = [0%nat; 1%nat] /\
   workerResponseHandler s4 !! id = Some (waiters [2%nat])) /\
  (calls s6 = [(Resolve 2%nat, ArgResult (Some (RNum 1)))] /\
   ~ settled 1%nat s6 /\
   uncaught s6 = [TypeError] /\
   activeWorkers s6 = [1%nat]).
Proof.
  cbv zeta. repeat split; try reflexivity.
  intros [a [H | H]]; vm_compute in H; destruct H as [H | []]; discriminate H.
Qed.

(** The shareable methods do register before they suspend: after the
    synchronous part of the first call the entry is there. *)
Lemma shared_call_registers_at_once id k p (s : State) :
  is_Some (workerResponseHandler (shared_call id k p s) !! id).
Proof.
  unfold shared_call. destruct (workerResponseHandler s !! id);
    cbn [workerResponseHandler set_handler set_suspended];
    rewrite lookup_insert_eq; eauto.
Qed.

(** The exclusive methods do not: a call that finds no entry leaves the
    table as it found it. *)
Lemma exclusive_call_registers_late (k : Exclusive) f x p (s : State) :
  workerResponseHandler s !! request_id s f (exclusive_suffix k) = None ->
  workerResponseHandler (step s (exclusive_call k f x p))
  = workerResponseHandler s.
Proof.
  intros H. destruct k; cbn [exclusive_call step];
    unfold truncateFile, writeFile; cbn [exclusive_suffix] in H;
    rewrite H; reflexivity.
Qed.

(** * The pool and the reclamation timer *)

Lemma start_all_spec msgs : forall s,
  idleWorkers s = [] ->
  let s' := start_all msgs s in
  activeWorkers s' = activeWorkers s ++ seq (created s) (length msgs) /\
  idleWorkers s' = [] /\
  created s' = (created s + length msgs)%nat /\
  timeout s' = timeout s /\ now s' = now s /\ terminated s' = terminated s.
Proof.
  induction msgs as [|m msgs IH]; intros s Hidle.
  - cbn. rewrite app_nil_r, Nat.add_0_r. repeat split; try reflexivity.
    exact Hidle.
  - cbn [start_all fold_left length seq].
    set (s1 := startWorker m s).
    assert (H1 : activeWorkers s1 = activeWorkers s ++ [created s] /\
                 idleWorkers s1 = [] /\ created s1 = S (created s) /\
                 timeout s1 = timeout s /\ now s1 = now s /\
                 terminated s1 = terminated s).
    { subst s1. unfold startWorker. rewrite Hidle. cbn. repeat split; reflexivity. }
    destruct H1 as (Ha & Hi & Hc & Ht & Hn & Hd).
    destruct (IH s1 Hi) as (Ha' & Hi' & Hc' & Ht' & Hn' & Hd').
    unfold start_all in *. rewrite Ha', Hi', Hc', Ht', Hn', Hd'.
    rewrite Ha, Hc, Ht, Hn, Hd, <- app_assoc.
    repeat split; try reflexivity. lia.
Qed.

Lemma complete_all_spec ws : forall s,
  let s' := complete_all ws s in
  idleWorkers s' = idleWorkers s ++ map Some ws /\
  now s' = now s /\ terminated s' = terminated s /\
  created s' = created s /\
  timeout s' = match ws with [] => timeout s | _ => Some (now s + quiet_period) end.
Proof.
  induction ws as [|w ws IH]; intros s.
  - cbn. rewrite app_nil_r. repeat split; reflexivity.
  - cbn [complete_all fold_left map].
    destruct (IH (clearIdleWorkers (completeWork w s))) as (Hi & Hn & Hd & Hc & Ht).
    unfold complete_all in *. rewrite Hi, Hn, Hd, Hc, Ht.
    cbn. rewrite <- app_assoc. repeat split; try reflexivity.
    destruct ws; reflexivity.
Qed.

Lemma terminate_all_live (ws : list WorkerId) :
  terminate_all (map Some ws) = (ws, false).
Proof.
  induction ws as [|w ws IH]; [reflexivity |].
  cbn. rewrite IH. reflexivity.
Qed.

Lemma omap_Some (ws : list WorkerId) : omap (fun w => w) (map Some ws) = ws.
Proof. induction ws as [|w ws IH]; [reflexivity |]. cbn. now rewrite IH. Qed.

(** The first two parts of the pool-reclamation property do hold: after a
    burst of P commands on an empty pool and their P completions the idle
    array holds the P workers; it still does after any quiet time shorter
    than ten seconds, and once ten seconds have passed the timer leaves the
    first of them and terminates the others. *)
Lemma burst_then_reclaim (msgs : list Message) (w : WorkerId)
      (ws : list WorkerId) (dt : Z) (s : State) :
  idleWorkers s = [] ->
  let s1 := start_all msgs s in
  let s2 := complete_all (w :: ws) s1 in
  let s3 := step s2 (Elapse dt) in
  length (activeWorkers s1) = (length (activeWorkers s) + length msgs)%nat /\
  idle_contexts s2 = w :: ws /\
  (0 <= dt < quiet_period ->
   idle_contexts s3 = w :: ws /\ terminated s3 = terminated s) /\
  (quiet_period <= dt ->
   idleWorkers s3 = [Some w] /\ terminated s3 = terminated s ++ ws).
Proof.
  intros Hidle s1 s2 s3.
  destruct (start_all_spec msgs s Hidle) as (Ha & Hi & Hc & Ht & Hn & Hd).
  fold s1 in Ha, Hi, Hc, Ht, Hn, Hd.
  destruct (complete_all_spec (w :: ws) s1) as (Hi2 & Hn2 & Hd2 & Hc2 & Ht2).
  fold s2 in Hi2, Hn2, Hd2, Hc2, Ht2. rewrite Hi in Hi2. cbn [app] in Hi2.
  split; [rewrite Ha, length_app, length_seq; reflexivity |].
  split; [unfold idle_contexts; rewrite Hi2; apply (omap_Some (w :: ws)) |].
  unfold quiet_period in *.
  split; intros Hdt; subst s3; cbn [step];
    cbn [timeout set_now now]; rewrite Ht2, Hn2;
    rewrite Z.max_r by lia.
  - destruct (Z.leb_spec (now s1 + 10000) (now s1 + dt)) as [|_]; [lia |].
    unfold idle_contexts. cbn [idleWorkers terminated set_now].
    rewrite Hi2, Hd2, Hd. split; [apply (omap_Some (w :: ws)) | reflexivity].
  - destruct (Z.leb_spec (now s1 + 10000) (now s1 + dt)) as [_|]; [| lia].
    unfold timer_callback.
    cbn [idleWorkers terminated set_now set_timeout add_terminated].
    rewrite Hi2. cbn [map skipn]. rewrite skipn_O, terminate_all_live.
    cbn [idleWorkers terminated set_pool add_terminated set_timeout set_now
           activeWorkers set_length_1].
    rewrite Hd2, Hd. split; reflexivity.
Qed.

(** C6 (evaluation of the code): one worker is created and answers; nine
    seconds later a second command takes it out of the idle array; the
    timer armed by the first completion fires while the array is empty, and
    [idleWorkers.length = 1] leaves an empty slot at index 0; the worker
    completes and is pushed at index 1; ten quiet seconds later the timer
    terminates it as one "beyond the first".  A context has been created,
    none is active, and the idle array holds no context at all. *)
Theorem C6_reclamation_terminates_the_only_context :
  let id := "/notes.txt_getSize"%string in
  let answer := WorkerMessage 0%nat (mkResponse (Some id) (Some (RNum 4)) None) in
  let request p := [CallGetFileSize "notes.txt" p;
                    Settle 0%nat (Ok "notes.txt"%string)] in
  let s1 := steps init (request 1%nat ++ [answer; Elapse 9000]) in
  let s2 := steps s1 (request 2%nat ++ [Elapse 1000]) in
  let s3 := steps s2 [answer; Elapse 10000] in
  (idleWorkers s1 = [Some 0%nat] /\ timeout s1 = Some 10000) /\
  (activeWorkers s2 = [0%nat] /\ idleWorkers s2 = [None] /\ timeout s2 = None) /\
  (created s3 = 1%nat /\ activeWorkers s3 = [] /\ idleWorkers s3 = [None] /\
   idle_contexts s3 = [] /\ terminated s3 = [0%nat] /\
   calls s3 = [(Resolve 1%nat, ArgResult (Some (RNum 4)));
               (Resolve 2%nat, ArgResult (Some (RNum 4)))]).
Proof.
  cbv zeta. repeat split; reflexivity.
Qed.

(** * Further properties of the worker script *)

(** What the [switch] can do to the file: only truncate and write change
    it, and the bytes on disk change only through a requested flush. *)
Lemma dispatch_file faults id cmd data opt w o w' :
  dispatch faults id cmd data opt w = (o, w') ->
  (cmd <> "truncate"%string -> cmd <> "write"%string -> file w' = file w) /\
  (truthy (flush opt) = false \/
   (cmd <> "truncate"%string /\ cmd <> "write"%string) ->
   durable (file w') = durable (file w)) /\
  locked (file w') = locked (file w).
Proof.
  unfold_ops. split_cases; intros [= <- <-]; cbn;
    repeat split; try reflexivity; try congruence;
    try (intros [? | [? ?]]; congruence).
Qed.

(** The file after a run is the file the [switch] left. *)
Lemma run_file faults m f :
  file (run faults m f) = f \/
  exists c o w',
    msg_command m = Some c /\
    dispatch faults (msg_id m) c (msg_data m)
             (match msg_option m with Some x => x | None => no_options end)
             (mkWorld f true [ECreateSyncAccessHandle]) = (o, w') /\
    file (run faults m f) = file w'.
Proof.
  remember (run faults m f) as R eqn:ER.
  unfold run, onmessage in ER.
  destruct (missing_str (msg_id m) || missing_str (msg_command m)
            || missing (msg_fileHandle m)) eqn:Hm; [left; subst R; reflexivity |].
  destruct (msg_command m) as [c|] eqn:Hc;
    [| rewrite orb_true_r in Hm; discriminate].
  unfold try_catch_finally in ER. unfold bind at 1 in ER.
  rewrite createSyncAccessHandle_run in ER. cbn [file accessHandle trace] in ER.
  destruct (locked f); [left; subst R; reflexivity |].
  destruct (faults OpCreateSyncAccessHandle); [left; subst R; reflexivity |].
  right. unfold bind at 1 in ER. unfold set_accessHandle at 1 in ER.
  cbn [file accessHandle trace app default from_option] in ER.
  match type of ER with
  | context [dispatch ?a ?b ?c ?d ?e ?w] =>
      destruct (dispatch a b c d e w) as [o w'] eqn:Hd
  end.
  exists c, o, w'. split; [reflexivity |]. split; [exact Hd |].
  subst R.
  destruct o as [[]|e]; unfold respond, get_accessHandle, bind, close, emit,
    ret; cbn; destruct (accessHandle w'); reflexivity.
Qed.

(** X1: a command that is neither truncate nor write - getSize, read, or
    anything else - leaves the file exactly as it was, whatever the storage
    layer does. *)
Theorem read_only_commands_keep_the_file faults m f :
  msg_command m <> Some "truncate"%string ->
  msg_command m <> Some "write"%string ->
  file (run faults m f) = f.
Proof.
  intros Ht Hw.
  destruct (run_file faults m f) as [H | (c & o & w' & Hc & Hd & ->)];
    [exact H |].
  apply dispatch_file in Hd as (Hf & _).
  apply Hf; intros ->; congruence.
Qed.

Lemma read_only_commands_keep_the_file_witness :
  file (run no_faults (sample_message "read" None) sample_file) = sample_file.
Proof.
  apply read_only_commands_keep_the_file; discriminate.
Defined.

(** X2: the bytes on disk change only when a truncate or write command asks
    for a flush: with a falsy [flush], or for any other command, they are
    what they were, whatever the storage layer does. *)
Theorem durable_changes_only_by_requested_flush faults m f :
  truthy (flush (match msg_option m with Some x => x | None => no_options end))
    = false
  \/ (msg_command m <> Some "truncate"%string /\
      msg_command m <> Some "write"%string) ->
  durable (file (run faults m f)) = durable f.
Proof.
  intros H.
  destruct (run_file faults m f) as [-> | (c & o & w' & Hc & Hd & ->)];
    [reflexivity |].
  apply dispatch_file in Hd as (_ & Hf & _). cbn [file] in Hf.
  apply Hf. destruct H as [H | [H1 H2]]; [left; exact H | right].
  split; intros ->; congruence.
Qed.

Lemma durable_changes_only_by_requested_flush_witness :
  durable (file (run no_faults
                     (mkMessage (Some "/notes.txt_truncate"%string)
                                (Some "truncate"%string) None
                                (Some (mkOptions VUndef (VInt 1) VUndef))
                                (Some "notes.txt"%string)) sample_file))
  = durable sample_file.
Proof.
  apply durable_changes_only_by_requested_flush. left. reflexivity.
Defined.

(** A write command with data and a valid offset, on a file that can be
    opened and a storage layer that does not fail. *)
Lemma run_write_valid f id fh k sz fl d :
  locked f = false -> id <> EmptyString -> 0 <= k ->
  let new := resize (Z.to_nat k) (contents f) ++ d
               ++ skipn (Z.to_nat k + length d) (contents f) in
  run no_faults
      (mkMessage (Some id) (Some "write"%string) (Some d)
                 (Some (mkOptions (VInt k) sz fl)) (Some fh)) f
  = mkWorld
      (mkFile new (if truthy fl then new else durable f) false)
      true
      ([ECreateSyncAccessHandle; EWrite k d]
         ++ (if truthy fl then [EFlush] else [])
         ++ [EPostMessage (mkResponse (Some id)
                             (Some (RNum (Z.of_nat (length d)))) None);
             EClose]).
Proof.
  intros Hl Hid Hk new. enter_try id "write"%string fh.
  cbn [to_offset to_number].
  destruct (Z.leb_spec 0 k) as [_|]; [| lia].
  cbn [no_faults file accessHandle trace app contents durable locked].
  rewrite ?Hl. destruct (truthy fl); cbn; rewrite ?Hl; reflexivity.
Qed.

(** X3: a write command with data [d] and offset k >= 0 posts the number of
    bytes of [d]; afterwards a getSize command posts max(S, k + |d|) and a
    read command at offset k posts a buffer that starts with [d] (followed
    by what the file held beyond it); with a truthy [flush] the new
    contents are on disk. *)
Theorem write_then_read_back (f : File) (id : string) (fh : FileHandle)
        (k : Z) (sz fl : value) (d : list byte) :
  locked f = false -> id <> EmptyString -> 0 <= k ->
  let w := run no_faults
               (mkMessage (Some id) (Some "write"%string) (Some d)
                          (Some (mkOptions (VInt k) sz fl)) (Some fh)) f in
  responses (trace w)
    = [mkResponse (Some id) (Some (RNum (Z.of_nat (length d)))) None] /\
  responses (trace (run no_faults
                        (mkMessage (Some id) (Some "getSize"%string) None None
                                   (Some fh)) (file w)))
    = [mkResponse (Some id)
         (Some (RNum (Z.max (Z.of_nat (length (contents f)))
                            (k + Z.of_nat (length d))))) None] /\
  responses (trace (run no_faults
                        (mkMessage (Some id) (Some "read"%string) None
                                   (Some (mkOptions (VInt k) VUndef VUndef))
                                   (Some fh)) (file w)))
    = [mkResponse (Some id)
         (Some (RBuf (d ++ skipn (Z.to_nat k + length d) (contents f)))) None] /\
  (truthy fl = true -> durable (file w) = contents (file w)).
Proof.
  intros Hl Hid Hk w. subst w.
  rewrite (run_write_valid f id fh k sz fl d Hl Hid Hk). cbv zeta.
  cbn [file trace contents durable].
  set (new := resize (Z.to_nat k) (contents f) ++ d
                ++ skipn (Z.to_nat k + length d) (contents f)).
  assert (Hlen : Z.of_nat (length new)
                 = Z.max (Z.of_nat (length (contents f)))
                         (k + Z.of_nat (length d))).
  { subst new. rewrite !length_app, length_resize, length_skipn. lia. }
  assert (Hskip : skipn (Z.to_nat k) new
                  = d ++ skipn (Z.to_nat k + length d) (contents f)).
  { subst new. rewrite skipn_app, length_resize, Nat.sub_diag.
    rewrite (skipn_all2 (resize _ _)) by (rewrite length_resize; lia).
    reflexivity. }
  split; [destruct (truthy fl); reflexivity |].
  split.
  { rewrite run_getSize by (assumption || reflexivity).
    cbn. rewrite Hlen. reflexivity. }
  split.
  { rewrite run_read_valid; cbn [contents locked];
      [rewrite Hskip; reflexivity | reflexivity | assumption | lia]. }
  intros ->. reflexivity.
Qed.

Lemma write_then_read_back_witness :
  let w := run no_faults
               (mkMessage (Some "/notes.txt_write"%string)
                          (Some "write"%string) (Some ["x"; "y"]%byte)
                          (Some (mkOptions (VInt 1) VUndef VUndef))
                          (Some "notes.txt"%string)) sample_file in
  (locked sample_file = false /\ "/notes.txt_write"%string <> EmptyString /\
   0 <= 1) /\
  responses (trace (run no_faults
                        (mkMessage (Some "/notes.txt_write"%string)
                                   (Some "read"%string) None
                                   (Some (mkOptions (VInt 1) VUndef VUndef))
                                   (Some "notes.txt"%string)) (file w)))
  = [mkResponse (Some "/notes.txt_write"%string)
                (Some (RBuf ["x"; "y"; "d"]%byte)) None].
Proof.
  cbv zeta. split.
  - split; [reflexivity | split; [discriminate | lia]].
  - apply (write_then_read_back sample_file "/notes.txt_write" "notes.txt" 1
             VUndef VUndef ["x"; "y"]%byte);
      [reflexivity | discriminate | lia].
Defined.

(** X4: a write command that carries no data posts 0 and touches nothing:
    no write, no flush even if one is asked for, the file as it was; this
    needs only that the handle can be acquired. *)
Theorem write_without_data faults (f : File) (id : string) (fh : FileHandle)
        (o : option Options) :
  locked f = false -> faults OpCreateSyncAccessHandle = None ->
  id <> EmptyString ->
  run faults (mkMessage (Some id) (Some "write"%string) None o (Some fh)) f
  = mkWorld f true
      [ECreateSyncAccessHandle;
       EPostMessage (mkResponse (Some id) (Some (RNum 0)) None); EClose].
Proof.
  intros Hl Hf Hid. unfold run.
  rewrite (onmessage_present _ _ id "write" fh) by (reflexivity || easy).
  cbn [msg_id msg_command msg_data msg_option msg_fileHandle].
  unfold try_catch_finally. unfold bind at 1.
  rewrite createSyncAccessHandle_run. cbn [file accessHandle trace].
  rewrite Hl, Hf. unfold_ops.
  repeat (case_decide; try congruence). reflexivity.
Qed.

Lemma write_without_data_witness :
  run no_faults
      (mkMessage (Some "/notes.txt_write"%string) (Some "write"%string) None
                 (Some (mkOptions VUndef VUndef (VBool true)))
                 (Some "notes.txt"%string)) sample_file
  = mkWorld sample_file true
      [ECreateSyncAccessHandle;
       EPostMessage (mkResponse (Some "/notes.txt_write"%string)
                                (Some (RNum 0)) None);
       EClose].
Proof.
  apply write_without_data; [reflexivity | reflexivity | discriminate].
Defined.

(** X5: a read command whose offset lies beyond the end of the file, or is
    negative, is answered with an error and no result (a RangeError from
    the buffer allocation, a TypeError from the read); nothing is read and
    the file is as it was. *)
Theorem read_offset_out_of_range (f : File) (id : string) (fh : FileHandle)
        (k : Z) (sz fl : value) :
  locked f = false -> id <> EmptyString ->
  k < 0 \/ Z.of_nat (length (contents f)) < k ->
  run no_faults
      (mkMessage (Some id) (Some "read"%string) None
                 (Some (mkOptions (VInt k) sz fl)) (Some fh)) f
  = mkWorld f true
      [ECreateSyncAccessHandle; EGetSize;
       EPostMessage (mkResponse (Some id) None
                       (Some (if k <? 0 then TypeError else RangeError)));
       EClose].
Proof.
  intros Hl Hid Hk. enter_try id "read"%string fh.
  assert (Hoff : match to_number (or_zero (VInt k)) with
                 | Some z => z
                 | None => 0
                 end = k).
  { unfold or_zero, truthy. destruct (Z.eqb_spec k 0); cbn; lia. }
  cbn [or_zero] in *. rewrite Hoff.
  destruct (Z.ltb_spec k 0) as [Hneg|Hpos].
  - destruct (Z.ltb_spec (Z.of_nat (length (contents f)) - k) 0); [lia |].
    cbn [to_offset to_number].
    destruct (Z.leb_spec 0 k); [lia |]. reflexivity.
  - destruct (Z.ltb_spec (Z.of_nat (length (contents f)) - k) 0); [| lia].
    reflexivity.
Qed.

Lemma read_offset_out_of_range_witness :
  run no_faults
      (mkMessage (Some "/notes.txt_read"%string) (Some "read"%string) None
                 (Some (mkOptions (VInt 5) VUndef VUndef))
                 (Some "notes.txt"%string)) sample_file
  = mkWorld sample_file true
      [ECreateSyncAccessHandle; EGetSize;
       EPostMessage (mkResponse (Some "/notes.txt_read"%string) None
                                (Some RangeError));
       EClose].
Proof.
  apply (read_offset_out_of_range sample_file "/notes.txt_read" "notes.txt"
           5 VUndef VUndef);
    [reflexivity | discriminate | right; cbn; lia].
Defined.

(** X6: when the access handle cannot be acquired - the file is locked by
    another handle, or the storage layer refuses - the command is answered
    with that error and nothing else happens: no operation on the file, and
    no close, since there is no handle. *)
Theorem acquisition_failure_is_reported faults m f e :
  ~ missing_field m ->
  (locked f = true /\ e = NoModificationAllowedError) \/
  (locked f = false /\ faults OpCreateSyncAccessHandle = Some e) ->
  run faults m f
  = mkWorld f false [EPostMessage (mkResponse (msg_id m) None (Some e))].
Proof.
  intros Hm He. rewrite missing_field_true in Hm.
  apply not_true_is_false in Hm.
  unfold run, onmessage. rewrite Hm.
  unfold try_catch_finally. unfold bind at 1.
  rewrite createSyncAccessHandle_run. cbn [file accessHandle trace].
  destruct He as [[-> ->] | [-> ->]]; reflexivity.
Qed.

Lemma acquisition_failure_is_reported_witness :
  run no_faults (sample_message "write" None) (mkFile [] [] true)
  = mkWorld (mkFile [] [] true) false
      [EPostMessage (mkResponse (Some "/notes.txt_op"%string) None
                                (Some NoModificationAllowedError))].
Proof.
  apply acquisition_failure_is_reported.
  - intros [H | [H | H]]; discriminate H.
  - left. split; reflexivity.
Defined.

(** X7: an error response does not mean that nothing happened.  When the
    write goes through and the flush asked for fails, the command is
    answered with the error of the flush and no result, the handle is
    closed - and the file holds the new bytes, with nothing of them known
    to be on disk. *)
Theorem failed_flush_keeps_the_write faults (f : File) (id : string)
        (fh : FileHandle) (k : Z) (sz fl : value) (d : list byte) (e : Error) :
  locked f = false -> id <> EmptyString -> 0 <= k -> truthy fl = true ->
  faults OpCreateSyncAccessHandle = None -> faults OpWrite = None ->
  faults OpFlush = Some e ->
  run faults
      (mkMessage (Some id) (Some "write"%string) (Some d)
                 (Some (mkOptions (VInt k) sz fl)) (Some fh)) f
  = mkWorld
      (mkFile (resize (Z.to_nat k) (contents f) ++ d
                 ++ skipn (Z.to_nat k + length d) (contents f))
              (durable f) false)
      true
      [ECreateSyncAccessHandle; EWrite k d;
       EPostMessage (mkResponse (Some id) None (Some e)); EClose].
Proof.
  intros Hl Hid Hk Hfl Hc Hw Hf. unfold run.
  rewrite (onmessage_present _ _ id "write" fh) by (reflexivity || easy).
  cbn [msg_id msg_command msg_data msg_option msg_fileHandle].
  unfold try_catch_finally. unfold bind at 1.
  rewrite createSyncAccessHandle_run. cbn [file accessHandle trace].
  rewrite Hl, Hc. unfold_ops.
  cbn [file accessHandle trace app at_ size flush].
  repeat (case_decide; try congruence).
  cbn [to_offset to_number at_ flush].
  destruct (Z.leb_spec 0 k) as [_|]; [| lia].
  rewrite Hw. cbn [file accessHandle trace app contents durable locked].
  rewrite Hfl, Hf. cbn. rewrite Hl. reflexivity.
Qed.

Lemma failed_flush_keeps_the_write_witness :
  run (flush_fails (Fault 1))
      (mkMessage (Some "/notes.txt_write"%string) (Some "write"%string)
                 (Some ["x"; "y"]%byte)
                 (Some (mkOptions (VInt 1) VUndef (VBool true)))
                 (Some "notes.txt"%string)) sample_file
  = mkWorld (mkFile ["a"; "x"; "y"; "d"]%byte [] false) true
      [ECreateSyncAccessHandle; EWrite 1 ["x"; "y"]%byte;
       EPostMessage (mkResponse (Some "/notes.txt_write"%string) None
                                (Some (Fault 1)));
       EClose].
Proof.
  apply (failed_flush_keeps_the_write (flush_fails (Fault 1)) sample_file
           "/notes.txt_write" "notes.txt" 1 VUndef (VBool true)
           ["x"; "y"]%byte (Fault 1));
    first [reflexivity | discriminate | lia].
Defined.

(** * Further properties of the main thread *)

(** X8: when the file lookup of the first getFileSize (or readFile) call is
    rejected, nothing is posted and no callback is invoked, the entry
    stays in the table, and every later call for the same file only joins
    it: none of these promises is settled by what follows. *)
Theorem shared_lookup_failure_strands_waiters (k : Shareable) (s : State)
        (f : string) (o : option Options) (p : PromiseId) (e : Error)
        (ops : list (option Options * PromiseId)) :
  let id := request_id s f (shareable_suffix k) in
  workerResponseHandler s !! id = None ->
  let s1 := steps s [shareable_call k f o p;
                     Settle (length (suspended s)) (Throw e)] in
  let s2 := steps s1 (calls_of (shareable_call k) f ops) in
  uncaught s1 = uncaught s ++ [e] /\
  posted s2 = posted s /\ calls s2 = calls s /\
  suspended s2 = suspended s /\
  workerResponseHandler s2 !! id = Some (waiters (p :: map snd ops)).
Proof.
  intros id Hnone s1 s2.
  assert (H1 : s1 = add_uncaught e
                      (set_handler (<[id := waiters [p]]> (workerResponseHandler s)) s)).
  { subst s1. cbn [steps fold_left].
    replace (step s (shareable_call k f o p))
      with (shared_call id (shareable_parked k id o) p s)
      by (destruct k; reflexivity).
    unfold shared_call. rewrite Hnone.
    cbn [step suspended set_suspended set_handler].
    rewrite lookup_app_r, Nat.sub_diag by lia. cbn [lookup list_lookup].
    change (suspended s ++ [shareable_parked k id o])
      with (suspended s ++ shareable_parked k id o :: []).
    rewrite delete_middle, app_nil_r.
    destruct k, s; reflexivity. }
  assert (Hid : request_id s1 f (shareable_suffix k) = id)
    by (rewrite H1; reflexivity).
  assert (H2 : s2 = set_handler (<[id := waiters ([p] ++ map snd ops)]>
                                   (workerResponseHandler s1)) s1).
  { subst s2. rewrite <- Hid.
    apply (shared_calls_join (option Options) (shareable_call k)
             (shareable_suffix k) (shareable_parked k)
             ltac:(intros; destruct k; reflexivity) f ops s1 [p]).
    rewrite Hid, H1. cbn [workerResponseHandler add_uncaught set_handler].
    apply lookup_insert_eq. }
  split; [rewrite H1; reflexivity |].
  rewrite H2, H1.
  cbn [posted calls suspended workerResponseHandler set_handler add_uncaught].
  rewrite lookup_insert_eq. repeat split; reflexivity.
Qed.

Lemma shared_lookup_failure_strands_waiters_witness :
  let s2 := steps init [CallGetFileSize "gone.txt" 1%nat;
                        Settle 0%nat (Throw NotFoundError);
                        CallGetFileSize "gone.txt" 2%nat] in
  posted s2 = [] /\ calls s2 = [] /\
  workerResponseHandler s2 !! "/gone.txt_getSize"%string
    = Some (waiters [1; 2]%nat).
Proof.
  cbv zeta.
  destruct (shared_lookup_failure_strands_waiters SizeQuery init "gone.txt"
              None 1%nat NotFoundError [(None, 2%nat)] eq_refl)
    as (_ & H1 & H2 & _ & H3).
  repeat split; assumption.
Defined.

(** X9: when the file lookup of a truncateFile (or writeFile) call is
    rejected, the caller's promise is rejected with that error and nothing
    else changes: the identity is left free for the next call. *)
Theorem exclusive_lookup_failure_rejects_caller (k : Exclusive) (s : State)
        (f : string) (x : option (list byte) * option Options)
        (p : PromiseId) (e : Error) :
  workerResponseHandler s !! request_id s f (exclusive_suffix k) = None ->
  steps s [exclusive_call k f x p; Settle (length (suspended s)) (Throw e)]
  = add_calls [(Reject p, ArgError e)] s.
Proof.
  intros Hnone. cbn [steps fold_left].
  replace (step s (exclusive_call k f x p))
    with (set_suspended
            (suspended s
               ++ [exclusive_parked k (request_id s f (exclusive_suffix k)) x p])
            s).
  2: { destruct k; cbn [exclusive_call step exclusive_suffix] in *;
       unfold truncateFile, writeFile; rewrite Hnone; reflexivity. }
  cbn [step suspended set_suspended].
  rewrite lookup_app_r, Nat.sub_diag by lia. cbn [lookup list_lookup].
  match goal with
  | |- context [delete _ (?l ++ [?y])] =>
      change (l ++ [y]) with (l ++ y :: []);
      rewrite delete_middle, app_nil_r
  end.
  destruct k, s; reflexivity.
Qed.

Lemma exclusive_lookup_failure_rejects_caller_witness :
  steps init [CallWriteFile "gone.txt" (Some []) None 1%nat;
              Settle 0%nat (Throw NotFoundError)]
  = add_calls [(Reject 1%nat, ArgError NotFoundError)] init.
Proof.
  apply (exclusive_lookup_failure_rejects_caller WriteOp init "gone.txt"
           (Some [], None) 1%nat NotFoundError).
  reflexivity.
Defined.

Lemma pop_snoc (ws : list (option WorkerId)) (x : option WorkerId) :
  pop (ws ++ [x]) = (x, ws).
Proof. unfold pop. rewrite rev_unit, rev_involutive. reflexivity. Qed.

(** [pop] takes the last slot, whatever it holds. *)
Lemma pop_spec (ws : list (option WorkerId)) :
  (ws = [] /\ pop ws = (None, [])) \/
  (exists front x, ws = front ++ [x] /\ pop ws = (x, front)).
Proof.
  destruct ws as [|a ws' _] using rev_ind; [left; split; reflexivity |].
  right. exists ws', a. split; [reflexivity | apply pop_snoc].
Qed.

(** X10: the worker that completed last is the one the next command goes
    to: no worker is created, the idle array is back to what it was, and
    the dispatch neither cancels nor re-arms the timer the completion
    set. *)
Theorem completed_worker_is_reused (w : WorkerId) (m : Message) (s : State) :
  let s1 := clearIdleWorkers (completeWork w s) in
  let s2 := startWorker m s1 in
  posted s2 = posted s ++ [(w, m)] /\
  created s2 = created s /\
  idleWorkers s2 = idleWorkers s /\
  activeWorkers s2 = remove_first w (activeWorkers s) ++ [w] /\
  timeout s2 = Some (now s + quiet_period).
Proof.
  intros s1 s2. subst s2 s1. unfold startWorker, clearIdleWorkers, completeWork.
  cbn [idleWorkers set_timeout set_pool]. rewrite pop_snoc.
  cbn. repeat split; reflexivity.
Qed.

(** Time that passes before the deadline moves the clock only. *)
Lemma elapse_before_deadline (s : State) (d dt : Z) :
  timeout s = Some d -> 0 <= dt -> now s + dt < d ->
  step s (Elapse dt) = set_now (now s + dt) s.
Proof.
  intros Ht H0 Hd. cbn [step]. rewrite Z.max_r by lia.
  cbn [timeout set_now now]. rewrite Ht.
  destruct (Z.leb_spec d (now s + dt)); [lia | reflexivity].
Qed.

(** X11: each completion puts the deadline ten seconds after itself, so as
    long as completions follow one another less than ten seconds apart no
    worker is terminated and the idle array only grows. *)
Theorem no_reclamation_during_a_busy_period (evs : list (Z * WorkerId)) :
  forall s : State,
    timeout s = Some (now s + quiet_period) ->
    Forall (fun ev => 0 <= fst ev < quiet_period) evs ->
    let s' := busy_period evs s in
    terminated s' = terminated s /\
    idleWorkers s' = idleWorkers s ++ map (fun ev => Some (snd ev)) evs /\
    timeout s' = Some (now s' + quiet_period) /\
    uncaught s' = uncaught s.
Proof.
  induction evs as [|[dt w] evs IH]; intros s Ht Hall.
  - cbn. rewrite app_nil_r. auto.
  - inversion Hall as [|? ? Hdt Hall']; subst. cbn [fst snd] in Hdt.
    cbn [busy_period fold_left fst snd map].
    rewrite (elapse_before_deadline s _ dt Ht) by lia.
    set (s1 := clearIdleWorkers (completeWork w (set_now (now s + dt) s))).
    destruct (IH s1) as (H1 & H2 & H3 & H4); [reflexivity | assumption |].
    unfold busy_period in *. rewrite H1, H2, H3, H4.
    subst s1. cbn. rewrite <- app_assoc. auto.
Qed.

Lemma no_reclamation_during_a_busy_period_witness :
  let s := clearIdleWorkers (completeWork 0%nat init) in
  let s' := busy_period [(9999, 1%nat); (9999, 2%nat)] s in
  terminated s' = [] /\
  idleWorkers s' = [Some 0%nat; Some 1%nat; Some 2%nat].
Proof.
  cbv zeta.
  destruct (no_reclamation_during_a_busy_period
              [(9999, 1%nat); (9999, 2%nat)]
              (clearIdleWorkers (completeWork 0%nat init)))
    as (H1 & H2 & _).
  - reflexivity.
  - repeat constructor; cbn; lia.
  - split; assumption.
Defined.

Lemma terminate_all_from (ws : list (option WorkerId)) :
  forall w, In w (fst (terminate_all ws)) -> In (Some w) ws.
Proof.
  induction ws as [|[x|] ws IH]; cbn; intros w Hw; try contradiction.
  destruct (terminate_all ws) as [t threw]. cbn in *.
  destruct Hw as [-> | Hw]; auto.
Qed.

(** X12: the timer callback terminates only workers that sit in the idle
    array behind slot 0; it never touches an active worker, slot 0, the
    handler table, or anything posted or delivered. *)
Theorem timer_spares_active_and_first (s : State) :
  let s' := timer_callback s in
  activeWorkers s' = activeWorkers s /\
  (exists ts, terminated s' = terminated s ++ ts /\
              forall w, In w ts -> In (Some w) (skipn 1 (idleWorkers s))) /\
  (idleWorkers s <> [] -> idleWorkers s' !! 0%nat = idleWorkers s !! 0%nat) /\
  workerResponseHandler s' = workerResponseHandler s /\
  posted s' = posted s /\ calls s' = calls s.
Proof.
  unfold timer_callback.
  pose proof (terminate_all_from (skipn 1 (idleWorkers s))) as Hfrom.
  destruct (terminate_all (skipn 1 (idleWorkers s))) as [t threw].
  cbn [fst] in Hfrom.
  destruct threw; cbn; (split; [reflexivity |]);
    (split; [exists t; split; [reflexivity | exact Hfrom] |]);
    (split; [| repeat split; reflexivity]); intros Hne; try reflexivity.
  destruct (idleWorkers s); [contradiction | reflexivity].
Qed.

(** A key that holds a slash names no member of [Object.prototype]. *)
Lemma Object_prototype_slash (key : string) :
  has_slash key -> Object_prototype key = None.
Proof.
  unfold has_slash, Object_prototype. intros Hs. cbn [existsb orb].
  repeat match goal with
    | |- context [String.eqb key ?n] =>
        destruct (String.eqb_spec key n) as [E | _];
        [exfalso; rewrite E in Hs; cbn in Hs; intuition discriminate |]
    end.
  reflexivity.
Qed.

(** X13: only one response is delivered per registration.  If a second
    response arrives under an identity whose entry the first has already
    cleared (two commands were posted under it), it is dropped with an
    exception: no callback is invoked, and the worker that sent it is
    neither taken off the active list nor made idle.  The identity is one
    the table does not inherit from [Object.prototype], as is every
    identity the four methods register. *)
Theorem duplicate_response_leaks_worker (s : State) (id : string)
        (ps : list PromiseId) (w1 w2 : WorkerId) (d1 d2 : Response) :
  workerResponseHandler s !! id = Some (waiters ps) ->
  Object_prototype id = None ->
  resp_id d1 = Some id -> resp_id d2 = Some id ->
  let s1 := step s (WorkerMessage w1 d1) in
  let s2 := step s1 (WorkerMessage w2 d2) in
  calls s1 = calls s ++ map (deliver d1) ps /\
  s2 = add_uncaught TypeError s1 /\
  activeWorkers s2 = remove_first w1 (activeWorkers s) /\
  idleWorkers s2 = idleWorkers s ++ [Some w1].
Proof.
  intros Hh Hown H1 H2 s1 s2.
  destruct (worker_onmessage_registered w1 d1 id ps s H1 Hh)
    as (Hc & Hh1 & _).
  change (worker_onmessage w1 d1 s) with s1 in Hc, Hh1.
  split; [exact Hc |].
  assert (Hs2 : s2 = add_uncaught TypeError s1).
  { subst s2. cbn [step]. unfold worker_onmessage, handleWorkerResponse.
    rewrite H2, Hh1, lookup_delete_eq, Hown. reflexivity. }
  split; [exact Hs2 |].
  rewrite Hs2. cbn [activeWorkers idleWorkers add_uncaught].
  subst s1. cbn [step]. unfold worker_onmessage, handleWorkerResponse.
  rewrite H1, Hh, fan_out_waiters. cbn. split; reflexivity.
Qed.

Lemma duplicate_response_leaks_worker_witness :
  let id := "/notes.txt_write"%string in
  let d := mkResponse (Some id) (Some (RNum 1)) None in
  let s := steps init [CallWriteFile "notes.txt" (Some ["x"%byte]) None 1%nat;
                       CallWriteFile "notes.txt" (Some ["y"%byte]) None 2%nat;
                       Settle 0%nat (Ok "notes.txt"%string);
                       Settle 0%nat (Ok "notes.txt"%string)] in
  let s2 := steps s [WorkerMessage 0%nat d; WorkerMessage 1%nat d] in
  workerResponseHandler s !! id = Some (waiters [2%nat]) /\
  activeWorkers s2 = [1%nat] /\ idleWorkers s2 = [Some 0%nat].
Proof.
  cbv zeta. split; [reflexivity |].
  destruct (duplicate_response_leaks_worker
              (steps init [CallWriteFile "notes.txt" (Some ["x"%byte]) None 1%nat;
                           CallWriteFile "notes.txt" (Some ["y"%byte]) None 2%nat;
                           Settle 0%nat (Ok "notes.txt"%string);
                           Settle 0%nat (Ok "notes.txt"%string)])
              "/notes.txt_write" [2%nat] 0%nat 1%nat
              (mkResponse (Some "/notes.txt_write"%string) (Some (RNum 1)) None)
              (mkResponse (Some "/notes.txt_write"%string) (Some (RNum 1)) None)
              eq_refl eq_refl eq_refl eq_refl)
    as (_ & _ & H3 & H4).
  split; [exact H3 | exact H4].
Defined.

(** * Invariants of the pool and of the handler table *)

#[local] Set Warnings "-clear-no-such-hyp".

Lemma omap_snoc (front : list (option WorkerId)) (x : option WorkerId) :
  omap (fun w => w) (front ++ [x])
  = omap (fun w => w) front ++ match x with Some w => [w] | None => [] end.
Proof. rewrite omap_app. destruct x; reflexivity. Qed.

Lemma tail_slots_snoc (front : list (option WorkerId)) (x : option WorkerId) :
  Forall (fun slot : option WorkerId => is_Some slot) (skipn 1 (front ++ [x])) ->
  Forall (fun slot : option WorkerId => is_Some slot) (skipn 1 front).
Proof.
  destruct front as [|a front]; [constructor |].
  change (skipn 1 ((a :: front) ++ [x])) with (front ++ [x]).
  change (skipn 1 (a :: front)) with front.
  rewrite Forall_app. tauto.
Qed.

Lemma NoDup_snoc_fresh (l : list WorkerId) (x : WorkerId) :
  NoDup l -> x ∉ l -> NoDup (l ++ [x]).
Proof.
  intros Hl Hx. rewrite NoDup_app. split; [assumption |].
  split; [| apply NoDup_singleton].
  intros y Hy Hy'. apply list_elem_of_singleton in Hy'. subst. contradiction.
Qed.

(** [startWorker] keeps a pool in order. *)
Lemma pool_ok_start active idle gone made popped idle' :
  pool_ok active idle gone made ->
  pop idle = (popped, idle') ->
  pool_ok (active ++ [match popped with Some w => w | None => made end])
          idle' gone
          (match popped with Some _ => made | None => S made end).
Proof.
  unfold pool_ok. intros (Hnd & Hlt & Hgone & Htail) Hpop.
  assert (Hfresh : made ∉ active ++ omap (fun w => w) idle ++ gone).
  { intros Hin. apply Hlt in Hin. lia. }
  destruct (pop_spec idle) as [[-> Hp] | (front & x & -> & Hp)];
    rewrite Hp in Hpop; injection Hpop as <- <-.
  - cbn in *. rewrite app_nil_r in *.
    split; [| split; [| split; [| constructor]]].
    + apply NoDup_snoc_fresh; [assumption |]. set_solver.
    + intros w Hw. rewrite !elem_of_app, list_elem_of_singleton in Hw.
      destruct Hw as [[Hw | ->] | Hw]; [| lia |];
        (enough (w < made)%nat by lia); apply Hlt; set_solver.
    + intros w Hw Hw'. rewrite elem_of_app, list_elem_of_singleton in Hw'.
      destruct Hw' as [Hw' | ->]; [apply (Hgone w Hw Hw') | set_solver].
  - apply tail_slots_snoc in Htail. rewrite omap_snoc in *.
    destruct x as [w|].
    + split; [| split; [| split; [| assumption]]].
      * rewrite !NoDup_app in *. set_solver.
      * intros v Hv. apply Hlt. set_solver.
      * intros v Hv Hv'. apply (Hgone v Hv). set_solver.
    + rewrite app_nil_r in *.
      split; [| split; [| split; [| assumption]]].
      * rewrite NoDup_app in Hnd. destruct Hnd as (Ha & Hd & Hf).
        rewrite NoDup_app. split; [| split; [| assumption]].
        -- apply NoDup_snoc_fresh; [assumption |]. set_solver.
        -- intros w Hw Hw'. rewrite elem_of_app, list_elem_of_singleton in Hw.
           destruct Hw as [Hw | ->]; [apply (Hd w Hw Hw') | set_solver].
      * intros w Hw.
        rewrite !elem_of_app, list_elem_of_singleton in Hw.
        destruct Hw as [[Hw | ->] | [Hw | Hw]]; [| lia | |];
          (enough (w < made)%nat by lia); apply Hlt; set_solver.
      * intros w Hw Hw'.
        rewrite !elem_of_app, list_elem_of_singleton in Hw'.
        destruct Hw' as [[Hw' | ->] | Hw'];
          [apply (Hgone w Hw); set_solver | set_solver
           | apply (Hgone w Hw); set_solver].
Qed.

Lemma remove_first_perm (w : WorkerId) (ws : list WorkerId) :
  w ∈ ws -> ws ≡ₚ w :: remove_first w ws.
Proof.
  induction ws as [|x ws IH]; intros Hw; [apply elem_of_nil in Hw as [] |].
  cbn. destruct (decide (x = w)) as [-> | Hne]; [reflexivity |].
  etransitivity; [apply perm_skip, IH | apply perm_swap].
  apply elem_of_cons in Hw as [-> | Hw]; [congruence | assumption].
Qed.

(** [completeWork] keeps a pool in order when the worker was active. *)
Lemma pool_ok_complete active idle gone made w :
  pool_ok active idle gone made ->
  w ∈ active ->
  pool_ok (remove_first w active) (idle ++ [Some w]) gone made.
Proof.
  unfold pool_ok. intros (Hnd & Hlt & Hgone & Htail) Hw.
  pose proof (remove_first_perm w active Hw) as Hp.
  rewrite omap_snoc.
  assert (Hperm : remove_first w active ++ omap (fun w => w) idle ++ [w]
                  ≡ₚ active ++ omap (fun w => w) idle).
  { transitivity ((w :: remove_first w active) ++ omap (fun w => w) idle).
    - cbn. rewrite app_assoc. symmetry. apply Permutation_cons_append.
    - apply Permutation_app_tail. symmetry. exact Hp. }
  split; [| split; [| split]].
  - rewrite Hperm. assumption.
  - intros v Hv. apply Hlt. rewrite app_assoc in Hv.
    rewrite app_assoc. rewrite elem_of_app in *.
    destruct Hv as [Hv | Hv]; [left | right; assumption].
    rewrite <- Hperm. assumption.
  - intros v Hv Hv'. apply (Hgone v Hv). rewrite <- Hperm. exact Hv'.
  - destruct idle as [|a idle]; [constructor |].
    change (skipn 1 ((a :: idle) ++ [Some w])) with (idle ++ [Some w]).
    change (skipn 1 (a :: idle)) with idle in Htail.
    rewrite Forall_app. split; [assumption |].
    constructor; [eauto | constructor].
Qed.

Lemma terminate_all_live_tail (ws : list (option WorkerId)) :
  Forall (fun slot : option WorkerId => is_Some slot) ws ->
  terminate_all ws = (omap (fun w => w) ws, false).
Proof.
  induction 1 as [|[w|] ws [v Hv] _ IH]; [reflexivity | | discriminate].
  cbn. rewrite IH. reflexivity.
Qed.

(** The timer callback keeps a pool in order, and does not throw. *)
Lemma pool_ok_timer active idle gone made :
  pool_ok active idle gone made ->
  terminate_all (skipn 1 idle) = (omap (fun w => w) (skipn 1 idle), false) /\
  pool_ok active (set_length_1 idle)
          (gone ++ omap (fun w => w) (skipn 1 idle)) made.
Proof.
  unfold pool_ok. intros (Hnd & Hlt & Hgone & Htail).
  split; [apply terminate_all_live_tail; assumption |].
  destruct idle as [|x tl].
  - cbn in *. rewrite !app_nil_r in *.
    split; [assumption |]. split; [assumption |]. split; [assumption |].
    constructor.
  - change (skipn 1 (x :: tl)) with tl in *. cbn [set_length_1].
    change (x :: tl) with ([x] ++ tl) in Hnd, Hlt, Hgone.
    rewrite omap_app in Hnd, Hlt, Hgone.
    split; [| split; [| split; [| constructor]]].
    + rewrite !NoDup_app in *. set_solver.
    + intros v Hv. apply Hlt. set_solver.
    + intros v Hv Hv'. rewrite !NoDup_app in Hnd. set_unfold.
      destruct Hv as [Hv | Hv].
      * apply (Hgone v Hv). set_solver.
      * set_solver.
Qed.

Lemma startWorker_pool (m : Message) (s : State) :
  exists popped idle',
    pop (idleWorkers s) = (popped, idle') /\
    activeWorkers (startWorker m s)
    = activeWorkers s ++ [match popped with Some w => w | None => created s end] /\
    idleWorkers (startWorker m s) = idle' /\
    terminated (startWorker m s) = terminated s /\
    created (startWorker m s)
    = match popped with Some _ => created s | None => S (created s) end.
Proof.
  unfold startWorker. destruct (pop (idleWorkers s)) as [popped idle'].
  exists popped, idle'. destruct popped; cbn; repeat split; reflexivity.
Qed.

Lemma same_pool_startWorker (m : Message) (s s0 : State) :
  same_pool s0 s -> same_pool (startWorker m s0) (startWorker m s).
Proof.
  intros (Ha & Hi & Ht & Hc). unfold same_pool, startWorker.
  rewrite Hi. destruct (pop (idleWorkers s)) as [[w|] idle']; cbn;
    rewrite ?Ha, ?Ht, ?Hc; repeat split; reflexivity.
Qed.

Lemma same_pool_timer (s s0 : State) :
  same_pool s0 s -> same_pool (timer_callback s0) (timer_callback s).
Proof.
  intros (Ha & Hi & Ht & Hc). unfold same_pool, timer_callback.
  rewrite Hi. destruct (terminate_all (skipn 1 (idleWorkers s))) as [t [|]];
    cbn; rewrite ?Ha, ?Hi, ?Ht, ?Hc; repeat split; reflexivity.
Qed.

(** What a step can do to the pool. *)
Lemma step_pool (s : State) (i : Input) :
  same_pool (step s i) s \/
  (exists m, same_pool (step s i) (startWorker m s)) \/
  (exists w d, i = WorkerMessage w d /\ same_pool (step s i) (completeWork w s)) \/
  same_pool (step s i) (timer_callback s).
Proof.
  destruct i as [f p | f o p | f o p | f b o p | n lookup | w data | dt];
    cbn [step].
  - left. unfold getFileSize, shared_call.
    destruct (workerResponseHandler s !! _); repeat split; reflexivity.
  - left. unfold readFile, shared_call.
    destruct (workerResponseHandler s !! _); repeat split; reflexivity.
  - left. unfold truncateFile.
    destruct (workerResponseHandler s !! _); repeat split; reflexivity.
  - left. unfold writeFile.
    destruct (workerResponseHandler s !! _); repeat split; reflexivity.
  - destruct (suspended s !! n) as [k|]; [| left; repeat split; reflexivity].
    set (s0 := set_suspended _ s).
    assert (H0 : same_pool s0 s) by (repeat split; reflexivity).
    destruct k, lookup; cbn [resume];
      try (left; repeat split; reflexivity);
      right; left; eexists;
      match goal with
      | |- same_pool (set_handler _ (startWorker ?m _)) _ =>
          pose proof (same_pool_startWorker m s s0 H0) as (?&?&?&?);
          repeat split; cbn; eassumption
      | |- same_pool (startWorker ?m _) _ =>
          apply (same_pool_startWorker m s s0 H0)
      end.
  - unfold worker_onmessage, handleWorkerResponse.
    destruct (resp_id data) as [id|]; [| left; repeat split; reflexivity].
    destruct (workerResponseHandler s !! id) as [cb|].
    + destruct (fan_out cb data) as [cs [|]];
        [left; repeat split; reflexivity |].
      right. right. left. exists w, data. repeat split; reflexivity.
    + destruct (Object_prototype id) as [[[|n]|]|];
        try (left; repeat split; reflexivity);
        right; right; left; exists w, data; repeat split; reflexivity.
  - destruct (timeout s) as [d|] eqn:Ht; cbn [timeout set_now]; rewrite Ht;
      [| left; repeat split; reflexivity].
    destruct (d <=? _); [| left; repeat split; reflexivity].
    right. right. right. apply same_pool_timer. repeat split; reflexivity.
Qed.

Lemma pool_ok_same (s s' : State) :
  same_pool s s' -> pool_inv s' -> pool_inv s.
Proof.
  intros (Ha & Hi & Ht & Hc). unfold pool_inv. rewrite Ha, Hi, Ht, Hc. auto.
Qed.

(** Every step keeps the pool in order, provided a worker message comes
    from an active worker. *)
Lemma pool_inv_step (s : State) (i : Input) :
  pool_inv s -> input_ok s i -> pool_inv (step s i).
Proof.
  intros Hinv Hok.
  destruct (step_pool s i) as [H | [[m H] | [(w & d & -> & H) | H]]];
    apply (pool_ok_same _ _ H); clear H.
  - exact Hinv.
  - destruct (startWorker_pool m s) as (popped & idle' & Hpop & Ha & Hi & Ht & Hc).
    unfold pool_inv. rewrite Ha, Hi, Ht, Hc.
    apply (pool_ok_start _ _ _ _ _ _ Hinv Hpop).
  - unfold pool_inv, completeWork. cbn.
    apply pool_ok_complete; [exact Hinv |].
    apply list_elem_of_In. exact Hok.
  - destruct (pool_ok_timer _ _ _ _ Hinv) as (Hterm & Hpool).
    unfold pool_inv, timer_callback. rewrite Hterm. cbn. exact Hpool.
Qed.

(** A response under a name the table inherits: for a function of length
    0 (or for "__proto__") the loop runs zero times, nothing is thrown and
    the worker is handed back like any other. *)
Lemma response_under_inherited_name (s : State) (w : WorkerId)
      (data : Response) (id : string) :
  resp_id data = Some id ->
  workerResponseHandler s !! id = None ->
  Object_prototype id = Some (InheritedFunction 0) \/
  Object_prototype id = Some InheritedObject ->
  step s (WorkerMessage w data) = clearIdleWorkers (completeWork w s).
Proof.
  intros Hid Hnone Hp. cbn [step]. unfold worker_onmessage, handleWorkerResponse.
  rewrite Hid, Hnone. destruct Hp as [-> | ->]; reflexivity.
Qed.

(** After such a response the worker is idle, so a second message from it
    is not one the pool can receive. *)
Lemma inherited_name_example :
  let stray := mkResponse (Some "toString"%string) None None in
  let answer := mkResponse (Some "/notes.txt_getSize"%string)
                           (Some (RNum 4)) None in
  let s := steps init [CallGetFileSize "notes.txt" 1%nat;
                       Settle 0%nat (Ok "notes.txt"%string);
                       WorkerMessage 0%nat stray] in
  uncaught s = [] /\ activeWorkers s = [] /\ idleWorkers s = [Some 0%nat] /\
  ~ well_formed init [CallGetFileSize "notes.txt" 1%nat;
                      Settle 0%nat (Ok "notes.txt"%string);
                      WorkerMessage 0%nat stray;
                      WorkerMessage 0%nat answer].
Proof.
  cbv zeta. repeat split; try reflexivity.
  cbn. intros (_ & _ & _ & [] & _).
Qed.

(** X14: starting from a pool in order (the empty pool is), and as long as
    worker messages come from workers that are running a command, the pool
    stays in order whatever else happens: no worker is listed twice among
    the active and idle ones, a terminated worker is neither, only slot 0
    of the idle array can be empty - so the timer callback never throws -
    and the worker the next command goes to is neither already running one
    nor terminated. *)
Theorem pool_stays_in_order (inputs : list Input) :
  forall s : State,
    pool_inv s -> well_formed s inputs ->
    let s' := steps s inputs in
    pool_inv s' /\
    ~ In (next_worker s') (activeWorkers s') /\
    ~ In (next_worker s') (terminated s').
Proof.
  induction inputs as [|i inputs IH]; intros s Hinv Hwf.
  - cbn. split; [exact Hinv |].
    destruct Hinv as (Hnd & Hlt & Hgone & _).
    unfold next_worker.
    destruct (pop_spec (idleWorkers s)) as [[Hi Hp] | (front & x & Hi & Hp)];
      rewrite Hp; cbn [fst].
    + split; intros Hin; apply list_elem_of_In in Hin;
        (enough (created s < created s)%nat by lia); apply Hlt;
        rewrite !elem_of_app; auto.
    + rewrite Hi, omap_snoc in Hnd, Hlt, Hgone. destruct x as [w|].
      * rewrite NoDup_app in Hnd. destruct Hnd as (_ & Hd & _).
        split; intros Hin; apply list_elem_of_In in Hin.
        -- apply (Hd w Hin). rewrite elem_of_app, list_elem_of_singleton. auto.
        -- apply (Hgone w Hin).
           rewrite !elem_of_app, list_elem_of_singleton. auto.
      * split; intros Hin; apply list_elem_of_In in Hin;
          (enough (created s < created s)%nat by lia); apply Hlt;
          rewrite !elem_of_app; auto.
  - destruct Hwf as [Hok Hwf]. cbn [steps fold_left].
    apply (IH (step s i)); [apply pool_inv_step; assumption | exact Hwf].
Qed.

Lemma pool_inv_init : pool_inv init.
Proof.
  repeat split; cbn; try constructor.
  - intros w Hw. apply elem_of_nil in Hw as [].
  - intros w Hw. apply elem_of_nil in Hw as [].
Qed.

Lemma pool_stays_in_order_witness :
  let inputs := [CallGetFileSize "notes.txt" 1%nat;
                 Settle 0%nat (Ok "notes.txt"%string);
                 WorkerMessage 0%nat
                   (mkResponse (Some "/notes.txt_getSize"%string)
                               (Some (RNum 4)) None);
                 Elapse 10000] in
  (pool_inv init /\ well_formed init inputs) /\
  pool_inv (steps init inputs).
Proof.
  cbv zeta. split.
  - split; [exact pool_inv_init |]. cbn. repeat split. left. reflexivity.
  - apply pool_stays_in_order; [exact pool_inv_init |].
    cbn. repeat split. left. reflexivity.
Defined.

Lemma table_ok_insert (h : gmap string (list Callback)) id ps :
  table_ok h -> ps <> [] -> table_ok (<[id := waiters ps]> h).
Proof.
  intros Hh Hps id' cb. rewrite lookup_insert.
  destruct (decide (id = id')) as [_ | _]; [| apply Hh].
  intros [= <-]. eauto.
Qed.

Lemma table_ok_delete (h : gmap string (list Callback)) id :
  table_ok h -> table_ok (delete id h).
Proof.
  intros Hh id' cb. rewrite lookup_delete.
  destruct (decide (id = id')); [discriminate | apply Hh].
Qed.

Lemma table_inv_shared_call id k p (s : State) :
  table_inv s -> table_inv (shared_call id k p s).
Proof.
  intros Hinv. unfold table_inv, shared_call.
  destruct (workerResponseHandler s !! id) as [cb|] eqn:E;
    cbn [workerResponseHandler set_handler set_suspended].
  - destruct (Hinv id cb E) as (ps & Hps & ->).
    change [Resolve p; Reject p] with (waiters [p]).
    rewrite <- waiters_app. apply table_ok_insert; [exact Hinv |].
    destruct ps; discriminate.
  - apply (table_ok_insert _ id [p]); [exact Hinv | discriminate].
Qed.

(** Every step keeps the handler table well formed. *)
Lemma table_inv_step (s : State) (i : Input) :
  table_inv s -> table_inv (step s i).
Proof.
  intros Hinv.
  destruct i as [f p | f o p | f o p | f b o p | n lookup | w data | dt];
    cbn [step].
  - apply table_inv_shared_call, Hinv.
  - apply table_inv_shared_call, Hinv.
  - unfold truncateFile. destruct (workerResponseHandler s !! _); exact Hinv.
  - unfold writeFile. destruct (workerResponseHandler s !! _); exact Hinv.
  - destruct (suspended s !! n) as [k|]; [| exact Hinv].
    set (s0 := set_suspended _ s).
    assert (H0 : workerResponseHandler s0 = workerResponseHandler s)
      by reflexivity.
    destruct k, lookup; cbn [resume]; unfold table_inv;
      cbn [workerResponseHandler set_handler add_calls add_uncaught];
      try match goal with
        | |- context [workerResponseHandler (startWorker ?m s0)] =>
            destruct (startWorker_spec m s0) as (_ & -> & _)
        end;
      rewrite ?H0; try exact Hinv;
      apply (table_ok_insert _ _ [p]); (exact Hinv || discriminate).
  - unfold worker_onmessage, handleWorkerResponse.
    destruct (resp_id data) as [id|]; [| exact Hinv].
    destruct (workerResponseHandler s !! id) as [cb|];
      [| destruct (Object_prototype id) as [[[|n]|]|]; exact Hinv].
    destruct (fan_out cb data) as [cs [|]]; [exact Hinv |].
    unfold table_inv. cbn. apply table_ok_delete, Hinv.
  - destruct (timeout s) as [d|] eqn:Ht; cbn [timeout set_now]; rewrite Ht;
      [| exact Hinv].
    destruct (d <=? _); [| exact Hinv].
    unfold table_inv, timer_callback. cbn [idleWorkers set_timeout set_now].
    destruct (terminate_all _) as [t [|]]; exact Hinv.
Qed.

(** X15: whatever the main thread is asked to run, every entry of the
    handler table holds the callback pairs of at least one promise.  A
    response to a registered identity therefore never runs out of
    callbacks: it settles at least one waiter, clears the entry, raises
    nothing and hands the worker back to the idle array. *)
Theorem registered_response_always_completes (inputs : list Input) :
  forall s : State,
    table_inv s ->
    let s' := steps s inputs in
    table_inv s' /\
    forall w data id,
      resp_id data = Some id ->
      is_Some (workerResponseHandler s' !! id) ->
      let s'' := step s' (WorkerMessage w data) in
      workerResponseHandler s'' !! id = None /\
      uncaught s'' = uncaught s' /\
      idleWorkers s'' = idleWorkers s' ++ [Some w] /\
      exists ps, ps <> [] /\ calls s'' = calls s' ++ map (deliver data) ps.
Proof.
  induction inputs as [|i inputs IH]; intros s Hinv.
  - cbn [steps fold_left]. split; [exact Hinv |].
    intros w data id Hid [cb Hcb].
    destruct (Hinv id cb Hcb) as (ps & Hps & ->).
    cbn [step]. unfold worker_onmessage, handleWorkerResponse.
    rewrite Hid, Hcb, fan_out_waiters. cbn.
    rewrite lookup_delete_eq. repeat split. exists ps. auto.
  - cbn [steps fold_left]. apply (IH (step s i)), table_inv_step, Hinv.
Qed.

Lemma table_inv_init : table_inv init.
Proof. intros id cb H. discriminate H. Qed.

Lemma registered_response_always_completes_witness :
  let s' := steps init [CallReadFile "notes.txt" None 1%nat;
                        CallReadFile "notes.txt" None 2%nat;
                        Settle 0%nat (Ok "notes.txt"%string)] in
  table_inv init /\ table_inv s'.
Proof.
  cbv zeta. split; [exact table_inv_init |].
  apply (registered_response_always_completes
           [CallReadFile "notes.txt" None 1%nat;
            CallReadFile "notes.txt" None 2%nat;
            Settle 0%nat (Ok "notes.txt"%string)] init table_inv_init).
Defined.

(** * Request identities *)

Lemma list_ascii_of_string_app (a b : string) :
  list_ascii_of_string (a ++ b)%string
  = list_ascii_of_string a ++ list_ascii_of_string b.
Proof.
  induction a as [|c a IH]; [reflexivity |].
  change (String c a ++ b)%string with (String c (a ++ b)%string).
  cbn [list_ascii_of_string app]. f_equal. exact IH.
Qed.

Lemma list_ascii_of_string_inj (a b : string) :
  list_ascii_of_string a = list_ascii_of_string b -> a = b.
Proof.
  intros H. rewrite <- (string_of_list_ascii_of_string a),
              <- (string_of_list_ascii_of_string b), H. reflexivity.
Qed.

(** A list is cut in one way only at the last occurrence of [c]. *)
Lemma cut_at_last (c : ascii) (l1 : list ascii) :
  forall l2 g1 g2,
    l1 ++ c :: g1 = l2 ++ c :: g2 -> ~ In c g1 -> ~ In c g2 ->
    l1 = l2 /\ g1 = g2.
Proof.
  induction l1 as [|a l1 IH]; intros [|b l2] g1 g2 H H1 H2; cbn in H.
  - injection H as ->. auto.
  - injection H as <- ->. exfalso. apply H1, in_or_app. right. left. reflexivity.
  - injection H as -> <-. exfalso. apply H2, in_or_app. right. left. reflexivity.
  - injection H as <- H. destruct (IH l2 g1 g2 H H1 H2) as [-> ->]. auto.
Qed.

(** A name that ends in one of the four suffixes ends in that one only. *)
Lemma suffix_unique (f1 f2 x1 x2 : string) :
  is_suffix x1 -> is_suffix x2 ->
  (f1 ++ x1)%string = (f2 ++ x2)%string -> f1 = f2 /\ x1 = x2.
Proof.
  intros H1 H2 H.
  apply (f_equal list_ascii_of_string) in H.
  rewrite !list_ascii_of_string_app in H.
  assert (Hrev := f_equal (@rev ascii) H). rewrite !rev_app_distr in Hrev.
  destruct H1 as [-> | [-> | [-> | ->]]], H2 as [-> | [-> | [-> | ->]]];
    cbn in Hrev; try congruence;
    (split; [| reflexivity]);
    apply list_ascii_of_string_inj; apply (app_inv_tail _ _ _ H).
Qed.

(** The identities the four methods register hold a slash: a read of the
    table under one of them never goes on to [Object.prototype]. *)
Lemma request_id_own (s : State) (f x : string) :
  Object_prototype (request_id s f x) = None.
Proof.
  unfold request_id, Object_prototype. cbn [existsb orb].
  assert (Hne : forall n : string,
             ~ In "/"%char (list_ascii_of_string n) ->
             ((workingDirectory s ++ "/" ++ f ++ x)%string =? n)%string = false).
  { intros n Hn. apply String.eqb_neq. intros E. apply Hn. rewrite <- E.
    rewrite !list_ascii_of_string_app, !in_app_iff. right. left. left.
    reflexivity. }
  rewrite !Hne by (cbn; intuition discriminate). reflexivity.
Qed.

(** X16: the identity of a request determines the working directory, the
    file name and the operation it was built from, as long as file names
    hold no slash: two requests share an entry of the handler table only
    if they are the same operation on the same file of the same
    directory. *)
Theorem request_id_injective (s1 s2 : State) (f1 f2 x1 x2 : string) :
  is_suffix x1 -> is_suffix x2 ->
  ~ has_slash f1 -> ~ has_slash f2 ->
  request_id s1 f1 x1 = request_id s2 f2 x2 ->
  workingDirectory s1 = workingDirectory s2 /\ f1 = f2 /\ x1 = x2.
Proof.
  unfold request_id, has_slash. intros Hx1 Hx2 Hf1 Hf2 H.
  assert (Hx : forall x, is_suffix x -> ~ In "/"%char (list_ascii_of_string x)).
  { intros x [-> | [-> | [-> | ->]]]; cbn; intuition discriminate. }
  apply (f_equal list_ascii_of_string) in H.
  rewrite !list_ascii_of_string_app in H. cbn [list_ascii_of_string app] in H.
  rewrite <- !list_ascii_of_string_app in H.
  apply cut_at_last in H as [Hwd Hg].
  - apply list_ascii_of_string_inj in Hwd, Hg.
    destruct (suffix_unique f1 f2 x1 x2 Hx1 Hx2 Hg) as [-> ->]. auto.
  - rewrite list_ascii_of_string_app, in_app_iff.
    intros [Hin | Hin]; [exact (Hf1 Hin) | exact (Hx x1 Hx1 Hin)].
  - rewrite list_ascii_of_string_app, in_app_iff.
    intros [Hin | Hin]; [exact (Hf2 Hin) | exact (Hx x2 Hx2 Hin)].
Qed.

Lemma request_id_injective_witness :
  let s2 := steps init [CallReadFile "a_write" None 1%nat] in
  (is_suffix "_read" /\ ~ has_slash "a_write" /\
   request_id init "a_write" "_read" = request_id s2 "a_write" "_read") /\
  workingDirectory init = workingDirectory s2 /\
  request_id init "a_write" "_read" <> request_id init "a" "_write".
Proof.
  cbv zeta.
  assert (Hx : is_suffix "_read") by (right; left; reflexivity).
  assert (Hs : ~ has_slash "a_write")
    by (unfold has_slash; cbn; intuition discriminate).
  split; [split; [exact Hx | split; [exact Hs | reflexivity]] |].
  split.
  - apply (request_id_injective init
             (steps init [CallReadFile "a_write" None 1%nat])
             "a_write" "a_write" "_read" "_read" Hx Hx Hs Hs eq_refl).
  - intros H.
    destruct (request_id_injective init init "a_write" "a" "_read" "_write"
                Hx) as (_ & _ & Hne); try assumption.
    + do 3 right; reflexivity.
    + unfold has_slash; cbn; intuition discriminate.
    + discriminate Hne.
Defined.

(** * The commands the main thread posts *)

Lemma command_ok_startWorker (m : Message) (s : State) :
  command_ok m -> commands_inv s -> commands_inv (startWorker m s).
Proof.
  intros Hm [Hp Hs]. destruct (startWorker_spec m s) as (Hp' & _ & Hs' & _).
  unfold commands_inv. rewrite Hp', Hs'. split; [| exact Hs].
  apply Forall_app. split; [exact Hp |]. constructor; [exact Hm | constructor].
Qed.

Lemma commands_inv_same (s s' : State) :
  posted s' = posted s -> suspended s' = suspended s ->
  commands_inv s -> commands_inv s'.
Proof. unfold commands_inv. intros -> ->. auto. Qed.

Lemma commands_inv_park (k : Suspended) (s s' : State) :
  posted s' = posted s -> suspended s' = suspended s ++ [k] ->
  parked_id k <> EmptyString ->
  commands_inv s -> commands_inv s'.
Proof.
  unfold commands_inv. intros -> -> Hk [Hp Hs]. split; [exact Hp |].
  apply Forall_app. split; [exact Hs |]. constructor; [exact Hk | constructor].
Qed.

(** Every step keeps the posted commands and the parked bodies well
    formed. *)
Lemma commands_inv_step (s : State) (i : Input) :
  commands_inv s -> commands_inv (step s i).
Proof.
  intros Hinv.
  destruct i as [f p | f o p | f o p | f b o p | n lookup | w data | dt];
    cbn [step].
  - unfold getFileSize, shared_call.
    destruct (workerResponseHandler s !! _);
      [apply (commands_inv_same s); [reflexivity | reflexivity | exact Hinv] |].
    eapply (commands_inv_park _ s); [reflexivity | reflexivity | | exact Hinv].
    apply request_id_nonempty.
  - unfold readFile, shared_call.
    destruct (workerResponseHandler s !! _);
      [apply (commands_inv_same s); [reflexivity | reflexivity | exact Hinv] |].
    eapply (commands_inv_park _ s); [reflexivity | reflexivity | | exact Hinv].
    apply request_id_nonempty.
  - unfold truncateFile.
    destruct (workerResponseHandler s !! _);
      [apply (commands_inv_same s); [reflexivity | reflexivity | exact Hinv] |].
    eapply (commands_inv_park _ s); [reflexivity | reflexivity | | exact Hinv].
    apply request_id_nonempty.
  - unfold writeFile.
    destruct (workerResponseHandler s !! _);
      [apply (commands_inv_same s); [reflexivity | reflexivity | exact Hinv] |].
    eapply (commands_inv_park _ s); [reflexivity | reflexivity | | exact Hinv].
    apply request_id_nonempty.
  - destruct (suspended s !! n) as [k|] eqn:Hk; [| exact Hinv].
    destruct Hinv as [Hp Hs].
    assert (Hid : parked_id k <> EmptyString)
      by (eapply (proj1 (Forall_lookup _ _) Hs); exact Hk).
    assert (H0 : commands_inv (set_suspended (delete n (suspended s)) s)).
    { split; [exact Hp |]. cbn [suspended set_suspended].
      apply Forall_delete, Hs. }
    assert (Hok : forall c d o fh, known_command c ->
              command_ok (mkMessage (Some (parked_id k)) (Some c) d o (Some fh))).
    { intros c d o fh Hc. split; [eexists; split; [reflexivity | exact Hid] |].
      split; [eexists; split; [reflexivity | exact Hc] | eexists; reflexivity]. }
    set (s0 := set_suspended _ s) in *.
    destruct k, lookup; cbn [resume parked_id] in *.
    + apply command_ok_startWorker; [apply Hok; left; reflexivity | exact H0].
    + apply (commands_inv_same s0); [reflexivity | reflexivity | exact H0].
    + apply command_ok_startWorker;
        [apply Hok; right; left; reflexivity | exact H0].
    + apply (commands_inv_same s0); [reflexivity | reflexivity | exact H0].
    + eapply commands_inv_same;
        [| | apply command_ok_startWorker;
             [apply (Hok "truncate"%string); do 2 right; left; reflexivity
             | exact H0]]; reflexivity.
    + apply (commands_inv_same s0); [reflexivity | reflexivity | exact H0].
    + eapply commands_inv_same;
        [| | apply command_ok_startWorker;
             [apply (Hok "write"%string); do 3 right; reflexivity
             | exact H0]]; reflexivity.
    + apply (commands_inv_same s0); [reflexivity | reflexivity | exact H0].
  - apply (commands_inv_same s); [| | exact Hinv];
      unfold worker_onmessage, handleWorkerResponse;
      destruct (resp_id data) as [id|]; try reflexivity;
      (destruct (workerResponseHandler s !! id) as [cb|];
       [| destruct (Object_prototype id) as [[[|n]|]|]; reflexivity]);
      destruct (fan_out cb data) as [cs [|]]; reflexivity.
  - apply (commands_inv_same s); [| | exact Hinv];
      destruct (timeout s) as [d|] eqn:Ht; cbn [timeout set_now]; rewrite Ht;
      try reflexivity;
      destruct (d <=? _); try reflexivity;
      unfold timer_callback; cbn [idleWorkers set_timeout set_now];
      destruct (terminate_all _) as [t [|]]; reflexivity.
Qed.

Lemma command_ok_present (m : Message) : command_ok m -> ~ missing_field m.
Proof.
  intros ((id & Hid & Hne) & (c & Hc & K) & [fh Hfh]) [H | [H | H]].
  - rewrite Hid in H. cbn in H. case_decide; [contradiction | discriminate].
  - rewrite Hc in H. cbn in H.
    case_decide; [| discriminate].
    subst c. destruct K as [K | [K | [K | K]]]; discriminate K.
  - congruence.
Qed.

(** X17: the main thread never posts a command that the worker would turn
    down or pass over.  Whatever it has been asked to run, every command
    it has posted carries a non-empty identity, one of the four commands
    and a file handle; the worker therefore posts exactly one response to
    it, under the identity of the command, with either a result or an
    error - whatever the file and whatever the storage layer does. *)
Theorem posted_commands_are_answered (inputs : list Input) :
  forall s : State,
    commands_inv s ->
    let s' := steps s inputs in
    commands_inv s' /\
    forall (w : WorkerId) (m : Message),
      In (w, m) (posted s') ->
      command_ok m /\
      forall (faults : Op -> option Error) (f : File),
      exists r, responses (trace (run faults m f)) = [r] /\
                exactly_one_set r /\ resp_id r = msg_id m.
Proof.
  induction inputs as [|i inputs IH]; intros s Hinv.
  - cbn [steps fold_left]. split; [exact Hinv |].
    intros w m Hin. destruct Hinv as [Hp _].
    rewrite List.Forall_forall in Hp. specialize (Hp (w, m) Hin).
    cbn [snd] in Hp. split; [exact Hp |].
    intros faults f.
    destruct Hp as (Hid & (c & Hc & K) & Hfh).
    apply (run_known_responds faults m f c); [| exact Hc | exact K].
    apply command_ok_present. split; [exact Hid |].
    split; [exists c; split; assumption | exact Hfh].
  - cbn [steps fold_left]. apply (IH (step s i)), commands_inv_step, Hinv.
Qed.

Lemma commands_inv_init : commands_inv init.
Proof. split; constructor. Qed.

Lemma posted_commands_are_answered_witness :
  let s' := steps init [CallWriteFile "notes.txt" (Some ["x"%byte]) None 1%nat;
                        Settle 0%nat (Ok "notes.txt"%string)] in
  commands_inv init /\
  posted s' <> [] /\
  forall (w : WorkerId) (m : Message),
    In (w, m) (posted s') ->
    exists r, responses (trace (run no_faults m sample_file)) = [r] /\
              resp_id r = msg_id m.
Proof.
  cbv zeta. split; [exact commands_inv_init |]. split; [discriminate |].
  intros w m Hin.
  destruct (posted_commands_are_answered
              [CallWriteFile "notes.txt" (Some ["x"%byte]) None 1%nat;
               Settle 0%nat (Ok "notes.txt"%string)] init commands_inv_init)
    as (_ & H).
  destruct (H w m Hin) as (_ & Hr).
  destruct (Hr no_faults sample_file) as (r & Hr1 & _ & Hr2).
  exists r. split; assumption.
Defined.

(** * Navigation *)

Module NavigationFacts.
Import Navigation.

Section AnyPlatform.

Variable Tree : Type.
Variable Opt : Type.
Variable gd :
  DirectoryHandle -> string -> Opt -> Tree -> Outcome DirectoryHandle * Tree.
Variable gf : DirectoryHandle -> string -> Tree -> Outcome FileHandle.

#[local] Abbreviation cd_loop := (Navigation.cd_loop Tree Opt gd).
#[local] Abbreviation cd := (Navigation.cd Tree Opt gd).
#[local] Abbreviation walk := (Navigation.walk Tree Opt gd).

Lemma nonempty_decide (part : string) :
  nonempty part = if decide (part = EmptyString) then false else true.
Proof.
  unfold nonempty. destruct (decide (part = EmptyString)) as [-> | E];
    [reflexivity |].
  apply String.eqb_neq in E. rewrite E. reflexivity.
Qed.

(** The loop skips the empty parts. *)
Lemma cd_loop_filter parts : forall opt cur dir t,
  cd_loop parts opt cur dir t
  = cd_loop (List.filter nonempty parts) opt cur dir t.
Proof.
  induction parts as [|part parts IH]; intros opt cur dir t; [reflexivity |].
  cbn [List.filter cd_loop]. rewrite nonempty_decide.
  destruct (decide (part = EmptyString)) as [E|E]; [apply IH |].
  cbn [cd_loop]. destruct (decide (part = EmptyString)); [contradiction |].
  destruct cur as [h|e]; [| reflexivity].
  destruct (gd h part opt t) as [next t']. apply IH.
Qed.

Lemma segments_nonempty path : Forall (fun part => part <> EmptyString) (segments path).
Proof.
  apply List.Forall_forall. intros part Hin.
  apply filter_In in Hin as [_ Hne]. unfold nonempty in Hne.
  destruct (String.eqb_spec part EmptyString); [discriminate Hne | assumption].
Qed.

Lemma directory_of_snoc parts part :
  directory_of (parts ++ [part]) = (directory_of parts ++ "/" ++ part)%string.
Proof. unfold directory_of. rewrite fold_left_app. reflexivity. Qed.

(** The loop over non-empty parts, in closed form: the lookups run up to
    the first rejection; a rejection of the last lookup is kept as the
    new [current], an earlier one makes the next [await] throw. *)
Lemma cd_loop_walk pre : forall last opt h dir t,
  Forall (fun part => part <> EmptyString) (pre ++ [last]) ->
  cd_loop (pre ++ [last]) opt (Ok h) dir t
  = match walk pre opt h t with
    | (Ok h', t1) =>
        let '(next, t2) := gd h' last opt t1 in
        (Ok (next, fold_left (fun d part => (d ++ "/" ++ part)%string)
                             (pre ++ [last]) dir), t2)
    | (Throw e, t1) => (Throw e, t1)
    end.
Proof.
  induction pre as [|part pre IH]; intros last opt h dir t Hne.
  - inversion Hne as [|? ? Hl _]; subst. cbn.
    destruct (decide (last = EmptyString)); [contradiction |].
    destruct (gd h last opt t) as [next t2]. reflexivity.
  - inversion Hne as [|? ? Hp Hrest]; subst.
    cbn [app cd_loop Navigation.walk fold_left].
    destruct (decide (part = EmptyString)); [contradiction |].
    destruct (gd h part opt t) as [[h'|e] t1].
    + apply IH. assumption.
    + destruct pre as [|part' pre]; cbn [app cd_loop] in *.
      * inversion Hrest; subst.
        destruct (decide (last = EmptyString)); [contradiction | reflexivity].
      * inversion Hrest; subst.
        destruct (decide (part' = EmptyString)); [contradiction | reflexivity].
Qed.

(** [cd] in closed form, for a path with at least one non-empty part. *)
Lemma cd_outcome path pre last opt q r t :
  segments path = pre ++ [last] -> root q = Ok r ->
  cd path opt q t
  = match walk pre opt r t with
    | (Ok h, t1) =>
        let '(next, t2) := gd h last opt t1 in
        (mkQuery (root q) next (directory_of (pre ++ [last])), next, t2)
    | (Throw e, t1) => (q, Throw e, t1)
    end.
Proof.
  intros Hseg Hroot. unfold Navigation.cd.
  rewrite cd_loop_filter. fold (segments path). rewrite Hseg, Hroot.
  rewrite cd_loop_walk by (rewrite <- Hseg; apply segments_nonempty).
  destruct (walk pre opt r t) as [[h|e] t1]; [| reflexivity].
  destruct (gd h last opt t1) as [next t2]. reflexivity.
Qed.

(** A path without a non-empty part leads to the root. *)
Lemma cd_no_segments path opt q t :
  segments path = [] -> cd path opt q t = (reset q, root q, t).
Proof.
  intros Hnil. unfold Navigation.cd. rewrite cd_loop_filter.
  fold (segments path). rewrite Hnil. reflexivity.
Qed.

(** X18: [cd] reads its path through the non-empty parts only: two paths
    with the same non-empty parts (leading, trailing or doubled slashes
    apart) have the same effect and result; a path without any is
    [reset]; and whenever [cd] changes the object, the working directory
    it stores is the slash-separated list of those parts. *)
Theorem cd_depends_on_segments (path1 path2 : string) (opt : Opt) (q : Query)
        (t : Tree) :
  segments path1 = segments path2 ->
  cd path1 opt q t = cd path2 opt q t /\
  (segments path1 = [] -> cd path1 opt q t = (reset q, root q, t)) /\
  (forall q' r t', cd path1 opt q t = (q', r, t') ->
                   q' = q \/
                   workingDirectory q' = directory_of (segments path1)).
Proof.
  intros Hseg. split; [| split].
  - unfold Navigation.cd. rewrite (cd_loop_filter (split_slash path1)),
      (cd_loop_filter (split_slash path2)).
    fold (segments path1) (segments path2). rewrite Hseg. reflexivity.
  - apply cd_no_segments.
  - intros q' r t' Hcd.
    destruct (segments path1) as [|a l] eqn:E using rev_ind.
    + unfold Navigation.cd in Hcd. rewrite cd_loop_filter in Hcd.
      fold (segments path1) in Hcd. rewrite E in Hcd. cbn in Hcd.
      injection Hcd as <- _ _. right. reflexivity.
    + clear IHl. destruct (root q) as [r0|e0] eqn:Hr.
      * rewrite (cd_outcome path1 l a opt q r0 t E Hr) in Hcd.
        destruct (walk l opt r0 t) as [[h|e] t1].
        -- destruct (gd h a opt t1) as [next t2].
           injection Hcd as <- _ _. right. reflexivity.
        -- injection Hcd as <- _ _. left. reflexivity.
      * unfold Navigation.cd in Hcd. rewrite cd_loop_filter in Hcd.
        fold (segments path1) in Hcd. rewrite E, Hr in Hcd.
        pose proof (segments_nonempty path1) as Hne. rewrite E in Hne.
        destruct l as [|b l]; cbn [app Navigation.cd_loop] in Hcd;
          inversion Hne; subst;
          match type of Hcd with
          | context [decide (?p = EmptyString)] =>
              destruct (decide (p = EmptyString)); [contradiction |]
          end;
          injection Hcd as <- _ _; left; reflexivity.
Qed.

(** X19: if every part but the last resolves and the lookup of the last one
    is rejected, [cd] rejects with that error, yet the object has moved:
    [current] is the rejected promise and [workingDirectory] names the
    directory that could not be entered, so [getFileHandle] rejects with
    the same error for every file name. *)
Theorem cd_failure_at_last_part_moves_the_object (path : string)
        (pre : list string) (last : string) (opt : Opt) (q : Query)
        (r h : DirectoryHandle) (t t1 t2 : Tree) (e : Error) :
  segments path = pre ++ [last] -> root q = Ok r ->
  walk pre opt r t = (Ok h, t1) ->
  gd h last opt t1 = (Throw e, t2) ->
  let q' := mkQuery (root q) (Throw e) (directory_of (pre ++ [last])) in
  cd path opt q t = (q', Throw e, t2) /\
  forall fileName t', getFileHandle Tree gf fileName q' t' = Throw e.
Proof.
  intros Hseg Hroot Hwalk Hlast q'. split; [| reflexivity].
  rewrite (cd_outcome path pre last opt q r t Hseg Hroot), Hwalk, Hlast.
  reflexivity.
Qed.

(** X20: if the lookup of a part before the last is rejected, [cd] rejects
    with that error and leaves the object as it was: the later parts are
    not looked up. *)
Theorem cd_failure_before_last_part_keeps_the_object (path : string)
        (pre : list string) (last : string) (opt : Opt) (q : Query)
        (r : DirectoryHandle) (t t1 : Tree) (e : Error) :
  segments path = pre ++ [last] -> root q = Ok r ->
  walk pre opt r t = (Throw e, t1) ->
  cd path opt q t = (q, Throw e, t1).
Proof.
  intros Hseg Hroot Hwalk.
  rewrite (cd_outcome path pre last opt q r t Hseg Hroot), Hwalk.
  reflexivity.
Qed.

(** X21: [cd] starts from [root], never from where the object is: two
    objects with the same root get the same answer and do the same to the
    storage, whatever their [current] and [workingDirectory], and unless
    the call leaves them as they were they end up equal. *)
Theorem cd_starts_from_root (path : string) (opt : Opt) (q q' : Query)
        (t : Tree) :
  root q = root q' ->
  exists (q1 q1' : Query) (r : Outcome DirectoryHandle) (t1 : Tree),
    cd path opt q t = (q1, r, t1) /\
    cd path opt q' t = (q1', r, t1) /\
    ((q1 = q /\ q1' = q' /\ exists e, r = Throw e) \/ q1 = q1').
Proof.
  intros Hroot. unfold Navigation.cd. rewrite <- Hroot.
  destruct (Navigation.cd_loop Tree Opt gd (split_slash path) opt (root q)
              EmptyString t) as [[[cur dir]|e] t1].
  - exists (mkQuery (root q) cur dir), (mkQuery (root q) cur dir), cur, t1.
    split; [reflexivity |]. split; [reflexivity |]. right. reflexivity.
  - exists q, q', (Throw e), t1.
    split; [reflexivity |]. split; [reflexivity |]. left.
    split; [reflexivity |]. split; [reflexivity |]. exists e. reflexivity.
Qed.

End AnyPlatform.

Lemma cd_depends_on_segments_witness :
  let q := mkQuery (Ok []) (Ok []) EmptyString in
  segments "/a//b/" = segments "a/b" /\
  cd _ _ opfs_getDirectoryHandle "/a//b/" true q ∅
  = cd _ _ opfs_getDirectoryHandle "a/b" true q ∅.
Proof.
  cbv zeta. split; [reflexivity |].
  apply (cd_depends_on_segments _ _ opfs_getDirectoryHandle "/a//b/" "a/b").
  reflexivity.
Defined.

Lemma cd_failure_at_last_part_moves_the_object_witness :
  let q := mkQuery (Ok []) (Ok []) EmptyString in
  cd _ _ opfs_getDirectoryHandle "a" false q ∅
  = (mkQuery (Ok []) (Throw NotFoundError) "/a", Throw NotFoundError, ∅).
Proof.
  cbv zeta.
  apply (cd_failure_at_last_part_moves_the_object _ _ opfs_getDirectoryHandle
           (fun _ name _ => Ok name) "a" [] "a" false
           (mkQuery (Ok []) (Ok []) EmptyString) [] [] ∅ ∅ ∅ NotFoundError);
    reflexivity.
Defined.

Lemma cd_failure_before_last_part_keeps_the_object_witness :
  let q := mkQuery (Ok []) (Ok []) EmptyString in
  cd _ _ opfs_getDirectoryHandle "a/b" false q ∅ = (q, Throw NotFoundError, ∅).
Proof.
  cbv zeta.
  apply (cd_failure_before_last_part_keeps_the_object _ _
           opfs_getDirectoryHandle "a/b" ["a"%string] "b" false
           (mkQuery (Ok []) (Ok []) EmptyString) [] ∅ ∅ NotFoundError);
    reflexivity.
Defined.

Lemma cd_starts_from_root_witness :
  let q := mkQuery (Ok []) (Ok []) EmptyString in
  let q' := mkQuery (Ok []) (Throw NotFoundError) "/gone" in
  exists (q1 : Query) (t1 : gmap (list string) Node),
    cd _ _ opfs_getDirectoryHandle "a/b" true q ∅
    = (q1, Ok ["a"; "b"]%string, t1) /\
    cd _ _ opfs_getDirectoryHandle "a/b" true q' ∅
    = (q1, Ok ["a"; "b"]%string, t1).
Proof.
  cbv zeta.
  destruct (cd_starts_from_root _ _ opfs_getDirectoryHandle "a/b" true
              (mkQuery (Ok []) (Ok []) EmptyString)
              (mkQuery (Ok []) (Throw NotFoundError) "/gone") ∅ eq_refl)
    as (q1 & q1' & r & t1 & H1 & H2 & Hq).
  assert (Hr : r = Ok ["a"; "b"]%string).
  { vm_compute in H1. injection H1 as _ <- _. reflexivity. }
  subst r.
  destruct Hq as [(_ & _ & e & He) | <-]; [discriminate He |].
  exists q1, t1. split; assumption.
Defined.

(** *** [cd] over the origin private file system *)

Lemma is_directory_weaken (h : DirectoryHandle) (t t' : gmap (list string) Node) :
  t ⊆ t' -> is_directory h t = true -> is_directory h t' = true.
Proof.
  intros Hsub Hd. destruct h as [|a h]; [reflexivity |].
  unfold is_directory, DirectoryHandle in *. revert Hd.
  destruct (t !! (a :: h)) as [[|]|] eqn:E; intros Hd; try discriminate Hd.
  assert (E' : t' !! (a :: h) = Some DirectoryNode)
    by (eapply lookup_weaken; eassumption).
  rewrite E'. reflexivity.
Qed.

(** A lookup that succeeds, creating or not, leaves a directory in place
    that any later lookup finds, whatever has been added since. *)
Lemma opfs_lookup_stays (h : DirectoryHandle) (name : string) (create : bool)
      (t t1 : gmap (list string) Node) (h1 : DirectoryHandle) :
  opfs_getDirectoryHandle h name create t = (Ok h1, t1) ->
  h1 = h ++ [name] /\ t ⊆ t1 /\
  forall t2, t1 ⊆ t2 ->
             opfs_getDirectoryHandle h name false t2 = (Ok h1, t2).
Proof.
  unfold opfs_getDirectoryHandle, DirectoryHandle in *.
  destruct (valid_name name); [| discriminate].
  destruct (is_directory h t) eqn:Hd; [| discriminate]. cbn [negb].
  destruct (t !! (h ++ [name])) as [[|]|] eqn:E; try discriminate.
  - intros [= <- <-]. split; [reflexivity |]. split; [reflexivity |].
    intros t2 Hsub. rewrite (is_directory_weaken h t t2 Hsub Hd).
    assert (E' : t2 !! (h ++ [name]) = Some DirectoryNode)
      by (eapply lookup_weaken; eassumption).
    rewrite E'. reflexivity.
  - destruct create; [| discriminate]. intros [= <- <-].
    split; [reflexivity |].
    assert (Hins : t ⊆ <[h ++ [name] := DirectoryNode]> t)
      by (apply insert_subseteq, E).
    split; [exact Hins |].
    intros t2 Hsub.
    rewrite (is_directory_weaken h t t2)
      by (try assumption;
          transitivity (<[h ++ [name] := DirectoryNode]> t); assumption).
    assert (E' : t2 !! (h ++ [name]) = Some DirectoryNode)
      by (eapply lookup_weaken; [apply lookup_insert_eq | eassumption]).
    rewrite E'. reflexivity.
Qed.

Lemma walk_stays (parts : list string) :
  forall (create : bool) (h : DirectoryHandle)
         (t t1 : gmap (list string) Node) (h1 : DirectoryHandle),
  walk _ _ opfs_getDirectoryHandle parts create h t = (Ok h1, t1) ->
  h1 = h ++ parts /\ t ⊆ t1 /\
  forall t2, t1 ⊆ t2 ->
             walk _ _ opfs_getDirectoryHandle parts false h t2 = (Ok h1, t2).
Proof.
  induction parts as [|part parts IH]; intros create h t t1 h1 H.
  - injection H as <- <-. rewrite app_nil_r. auto.
  - cbn [walk] in *.
    destruct (opfs_getDirectoryHandle h part create t) as [[h'|e] t'] eqn:E;
      [| discriminate].
    destruct (opfs_lookup_stays _ _ _ _ _ _ E) as (-> & Hsub & Hlater).
    destruct (IH _ _ _ _ _ H) as (-> & Hsub' & Hlater').
    split; [symmetry; apply (app_assoc h [part] parts) |].
    split; [transitivity t'; assumption |].
    intros t2 Hsub2. rewrite Hlater by (transitivity t1; assumption).
    apply Hlater'. assumption.
Qed.

(** X22: over the origin private file system, a [cd] that is fulfilled -
    with or without [create] - ends in the directory its non-empty parts
    spell, and a plain [cd] to the same path from any object with the same
    root, at any later time at which nothing has been removed, is
    fulfilled with the same handle and changes nothing in the storage. *)
Theorem cd_can_be_repeated (path : string) (create : bool) (q q0 : Query)
        (t t1 t2 : gmap (list string) Node) (q1 : Query) (h : DirectoryHandle) :
  root q = Ok [] -> root q0 = Ok [] ->
  cd _ _ opfs_getDirectoryHandle path create q t = (q1, Ok h, t1) ->
  t1 ⊆ t2 ->
  h = segments path /\
  q1 = mkQuery (Ok []) (Ok h) (directory_of (segments path)) /\
  cd _ _ opfs_getDirectoryHandle path false q0 t2 = (q1, Ok h, t2).
Proof.
  intros Hroot Hroot0 Hcd Hsub.
  destruct (segments path) as [|last pre IHpre] eqn:Hseg using rev_ind;
    [| clear IHpre].
  - rewrite (cd_no_segments _ _ opfs_getDirectoryHandle path create q t Hseg)
      in Hcd.
    injection Hcd as <- Hh <-. rewrite Hroot in Hh. injection Hh as <-.
    rewrite (cd_no_segments _ _ opfs_getDirectoryHandle path false q0 t2 Hseg).
    unfold reset. rewrite Hroot, Hroot0. auto.
  - rewrite (cd_outcome _ _ opfs_getDirectoryHandle path pre last create q []
               t Hseg Hroot) in Hcd.
    destruct (walk _ _ opfs_getDirectoryHandle pre create [] t)
      as [[h'|e] t'] eqn:Hwalk; [| discriminate].
    destruct (opfs_getDirectoryHandle h' last create t') as [next t''] eqn:Hlast.
    injection Hcd as <- -> <-.
    destruct (walk_stays _ _ _ _ _ _ Hwalk) as (-> & Hsub1 & Hlater1).
    destruct (opfs_lookup_stays _ _ _ _ _ _ Hlast) as (-> & Hsub2 & Hlater2).
    cbn [app]. split; [reflexivity |]. rewrite Hroot.
    split; [reflexivity |].
    rewrite (cd_outcome _ _ opfs_getDirectoryHandle path pre last false q0 []
               t2 Hseg Hroot0).
    rewrite Hlater1 by (transitivity t''; assumption).
    rewrite Hlater2 by assumption. rewrite Hroot0. reflexivity.
Qed.

Lemma cd_can_be_repeated_witness :
  let q := mkQuery (Ok []) (Ok []) EmptyString in
  let t1 := snd (cd _ _ opfs_getDirectoryHandle "a/b" true q ∅) in
  cd _ _ opfs_getDirectoryHandle "a/b" false q t1
  = (mkQuery (Ok []) (Ok ["a"; "b"]%string) "/a/b", Ok ["a"; "b"]%string, t1).
Proof.
  cbv zeta.
  set (q := mkQuery (Ok []) (Ok []) EmptyString).
  destruct (cd _ _ opfs_getDirectoryHandle "a/b" true q ∅) as [[q1 r] t1] eqn:E.
  assert (Hr : r = Ok ["a"; "b"]%string /\
               q1 = mkQuery (Ok []) (Ok ["a"; "b"]%string) "/a/b").
  { vm_compute in E. injection E as <- <- _. split; reflexivity. }
  destruct Hr as [-> ->]. cbn [snd].
  destruct (cd_can_be_repeated "a/b" true q q ∅ t1 t1 _ _
              eq_refl eq_refl E (reflexivity t1)) as (_ & _ & H).
  exact H.
Defined.

End NavigationFacts.

(** * Listings *)

Module ListingFacts.
Import Worker Listing.

Section Comparator.

(** [localeCompare] is taken to order names consistently. *)
Variable localeCompare : string -> string -> Z.
Hypothesis localeCompare_flip :
  forall a b, Z.sgn (localeCompare b a) = - Z.sgn (localeCompare a b).
Hypothesis localeCompare_trans :
  forall a b c, localeCompare a b <= 0 -> localeCompare b c <= 0 ->
                localeCompare a c <= 0.

(** X23: on objects that have a name and whose kind is "file" or
    "directory", [sorter] does not throw and is a consistent comparator as
    soon as [localeCompare] is one: swapping the arguments flips the sign,
    "not after" is transitive, and every directory comes before every
    file. *)
Theorem sorter_is_consistent (a b c : Entry) :
  is_handle a -> is_handle b -> is_handle c ->
  exists ab ba : Z,
    sorter localeCompare a b = Ok ab /\
    sorter localeCompare b a = Ok ba /\
    Z.sgn ba = - Z.sgn ab /\
    (forall bc, sorter localeCompare b c = Ok bc -> ab <= 0 -> bc <= 0 ->
                exists ac, sorter localeCompare a c = Ok ac /\ ac <= 0) /\
    (kind a = Some "directory"%string -> kind b = Some "file"%string ->
     ab < 0 /\ 0 < ba).
Proof.
  unfold is_handle, sorter.
  destruct a as [na ka], b as [nb kb], c as [nc kc]. cbn [name kind].
  intros [[a Ha] Hka] [[b Hb] Hkb] [[c Hc] Hkc]. subst na nb nc.
  cbn [default].
  pose proof (localeCompare_flip a b) as Hflip.
  pose proof (localeCompare_trans a b c) as Htrans.
  destruct Hka as [-> | ->], Hkb as [-> | ->], Hkc as [-> | ->];
    repeat (case_decide; try congruence);
    eexists; eexists;
    (split; [reflexivity |]); (split; [reflexivity |]);
    (split; [first [exact Hflip | reflexivity] |]);
    (split; [| intros; first [discriminate | lia]]);
    intros bc [= <-] Hab Hbc; eexists; (split; [reflexivity |]);
    first [apply Htrans; assumption | lia].
Qed.

End Comparator.

Lemma sorter_is_consistent_witness :
  let cmp := fun _ _ : string => 0 in
  let dir := mkEntry (Some "src"%string) (Some "directory"%string) in
  let file := mkEntry (Some "a.txt"%string) (Some "file"%string) in
  (is_handle dir /\ is_handle file) /\
  exists ab ba : Z,
    sorter cmp dir file = Ok ab /\ sorter cmp file dir = Ok ba /\
    ab < 0 /\ 0 < ba.
Proof.
  cbv zeta.
  assert (Hd : is_handle (mkEntry (Some "src"%string) (Some "directory"%string)))
    by (split; [eexists; reflexivity | right; reflexivity]).
  assert (Hf : is_handle (mkEntry (Some "a.txt"%string) (Some "file"%string)))
    by (split; [eexists; reflexivity | left; reflexivity]).
  split; [split; assumption |].
  destruct (sorter_is_consistent (fun _ _ => 0)
              (fun _ _ => eq_refl) (fun _ _ _ _ _ => Z.le_refl 0)
              _ _ _ Hd Hf Hf)
    as (ab & ba & Hab & Hba & _ & _ & Hlt).
  exists ab, ba. split; [exact Hab |]. split; [exact Hba |].
  apply Hlt; reflexivity.
Defined.

(** X24: when the two kinds differ and neither is "directory", [sorter]
    answers 1 whichever way round it is asked: on such objects it is not a
    consistent comparator. *)
Theorem sorter_needs_handles (localeCompare : string -> string -> Z)
        (a b : Entry) :
  kind a <> kind b -> kind a <> Some "directory"%string ->
  kind b <> Some "directory"%string ->
  sorter localeCompare a b = Ok 1 /\ sorter localeCompare b a = Ok 1.
Proof.
  intros Hab Ha Hb. unfold sorter.
  repeat (case_decide; try congruence). split; reflexivity.
Qed.

Lemma sorter_needs_handles_witness :
  sorter (fun _ _ => 0) (mkEntry (Some "a"%string) (Some "file"%string))
         (mkEntry (Some "b"%string) (Some "link"%string)) = Ok 1 /\
  sorter (fun _ _ => 0) (mkEntry (Some "b"%string) (Some "link"%string))
         (mkEntry (Some "a"%string) (Some "file"%string)) = Ok 1.
Proof.
  apply sorter_needs_handles; discriminate.
Defined.

(** The loop of [ls] pushes one element per handle, in the order the
    directory yields them. *)
Lemma ls_loop_map (detail : bool) (path : string) (handles : list Handle) :
  ls_loop detail path handles = map (ls_push detail path) handles.
Proof.
  unfold ls_loop.
  enough (H : forall acc,
             fold_left (fun list handle => list ++ [ls_push detail path handle])
                       handles acc
             = acc ++ map (ls_push detail path) handles)
    by apply (H []).
  induction handles as [|h handles IH]; intros acc; cbn [fold_left map].
  - rewrite app_nil_r. reflexivity.
  - rewrite IH, <- app_assoc. reflexivity.
Qed.

Lemma ls_loop_lookup (detail : bool) (path : string) (handles : list Handle)
      (i : nat) (h : Handle) :
  handles !! i = Some h ->
  ls_loop detail path handles !! i = Some (ls_push detail path h).
Proof.
  intros H. rewrite ls_loop_map, list_lookup_fmap, H. reflexivity.
Qed.

(** X25: the list [ls] hands to [sort] holds, for each handle the directory
    yields and in that order, an object - or, for a file listed with
    detail, a promise that nothing awaits.  [sorter] finds neither a name
    nor a kind on a promise: asked to compare the elements of two files
    listed with detail it throws a TypeError, whichever two and whichever
    way round; on every other pair of elements it returns a number. *)
Theorem ls_detail_cannot_compare_files (localeCompare : string -> string -> Z)
        (detail : bool) (path : string) (handles : list Handle)
        (i j : nat) (hi hj : Handle) :
  handles !! i = Some hi -> handles !! j = Some hj ->
  exists x y : Listed,
    ls_loop detail path handles !! i = Some x /\
    ls_loop detail path handles !! j = Some y /\
    (detail = true /\ handle_kind hi = "file"%string /\
     handle_kind hj = "file"%string ->
     (exists p q, x = Promise p /\ y = Promise q) /\
     sorter localeCompare (as_entry x) (as_entry y) = Throw TypeError) /\
    (~ (detail = true /\ handle_kind hi = "file"%string /\
        handle_kind hj = "file"%string) ->
     exists z, sorter localeCompare (as_entry x) (as_entry y) = Ok z).
Proof.
  intros Hi Hj.
  exists (ls_push detail path hi), (ls_push detail path hj).
  split; [apply ls_loop_lookup, Hi |].
  split; [apply ls_loop_lookup, Hj |].
  unfold ls_push, sorter. split.
  - intros (-> & Hki & Hkj). rewrite Hki, Hkj. cbn.
    split; [eexists; eexists; split; reflexivity | reflexivity].
  - intros Hnot.
    destruct detail; cbn [andb];
      repeat (case_bool_decide; cbn [as_entry name kind plain_name plain_kind]);
      try (exfalso; apply Hnot; auto; fail);
      repeat (case_decide; try congruence); eexists; reflexivity.
Qed.

Lemma ls_detail_cannot_compare_files_witness :
  let a := mkHandle "a.txt" "file" (Ok (mkFileInfo 3 "text/plain" 0)) in
  let b := mkHandle "b.txt" "file" (Ok (mkFileInfo 5 "text/plain" 0)) in
  exists x y : Listed,
    ls_loop true "/docs" [a; b] !! 0%nat = Some x /\
    ls_loop true "/docs" [a; b] !! 1%nat = Some y /\
    sorter (fun _ _ => 0) (as_entry x) (as_entry y) = Throw TypeError /\
    sorter (fun _ _ => 0) (as_entry y) (as_entry x) = Throw TypeError.
Proof.
  cbv zeta.
  set (a := mkHandle "a.txt" "file" (Ok (mkFileInfo 3 "text/plain" 0))).
  set (b := mkHandle "b.txt" "file" (Ok (mkFileInfo 5 "text/plain" 0))).
  destruct (ls_detail_cannot_compare_files (fun _ _ => 0) true "/docs" [a; b]
              0 1 a b eq_refl eq_refl)
    as (x & y & Hx & Hy & Hthrow & _).
  destruct (ls_detail_cannot_compare_files (fun _ _ => 0) true "/docs" [a; b]
              1 0 b a eq_refl eq_refl)
    as (y' & x' & Hy' & Hx' & Hthrow' & _).
  rewrite Hx in Hx'. rewrite Hy in Hy'.
  injection Hx' as <-. injection Hy' as <-.
  exists x, y. split; [exact Hx |]. split; [exact Hy |].
  split; [apply Hthrow | apply Hthrow']; repeat split; reflexivity.
Defined.

End ListingFacts.

Module ReadableSizeFacts.
Import Listing.
Local Open Scope Q_scope.

Lemma unit_factor_pos (n : nat) : 0 < unit_factor n.
Proof.
  induction n as [|n IH]; cbn [unit_factor]; [reflexivity |].
  apply Qmult_lt_0_compat; [reflexivity | exact IH].
Qed.

(** What the loop computes, given fuel for the rounds that are left. *)
Lemma readableSize_loop_spec (fuel : nat) : forall (size : Q) (idx : nat),
  (idx <= 4)%nat -> (4 <= idx + fuel)%nat ->
  exists v i,
    readableSize_loop fuel size idx = (v, i) /\
    (idx <= i <= 4)%nat /\
    v * unit_factor (i - idx) == size /\
    ((i < 4)%nat -> v < 1024) /\
    ((idx < i)%nat -> 1 <= v) /\
    (size < 1024 -> i = idx /\ v = size).
Proof.
  induction fuel as [|fuel IH]; intros size idx Hle Hfuel.
  - exists size, idx. assert (idx = 4)%nat by lia. subst.
    replace (4 - 4)%nat with 0%nat by lia. cbn [unit_factor readableSize_loop].
    split; [reflexivity |]. split; [lia |]. split; [ring |].
    split; [intros; lia |]. split; [intros; lia | auto].
  - cbn [readableSize_loop].
    destruct (Qle_bool 1024 size) eqn:Hq; cbn [andb].
    + destruct (Nat.ltb_spec idx 4) as [Hlt | Hge].
      * apply Qle_bool_iff in Hq.
        destruct (IH (size / K) (idx + 1)%nat) as
          (v & i & Hloop & Hi & Hv & Hsmall & Hbig & _); [lia | lia |].
        exists v, i. split; [exact Hloop |]. split; [lia |].
        split; [| split; [exact Hsmall | split]].
        -- replace (i - idx)%nat with (S (i - (idx + 1)))%nat by lia.
           cbn [unit_factor]. unfold K in Hv.
           rewrite (Qmult_comm 1024), Qmult_assoc, Hv. field.
        -- intros _. destruct (Nat.eq_dec i (idx + 1)%nat) as [-> | Hne].
           ++ replace (idx + 1 - (idx + 1))%nat with 0%nat in Hv by lia.
              cbn [unit_factor] in Hv. rewrite Qmult_1_r in Hv. rewrite Hv.
              unfold K. apply Qle_shift_div_l; [reflexivity |].
              rewrite Qmult_1_l. exact Hq.
           ++ apply Hbig. lia.
        -- intros Hs. exfalso. apply (Qlt_not_le _ _ Hs Hq).
      * exists size, idx. assert (idx = 4)%nat by lia. subst.
        replace (4 - 4)%nat with 0%nat by lia. cbn [unit_factor].
        split; [reflexivity |]. split; [lia |]. split; [ring |].
        split; [intros; lia |]. split; [intros; lia | auto].
    + exists size, idx. replace (idx - idx)%nat with 0%nat by lia.
      cbn [unit_factor]. split; [reflexivity |]. split; [lia |].
      split; [ring |]. split; [| split; [lia | auto]].
      intros _. apply Qnot_le_lt. intros Hc.
      apply Qle_bool_iff in Hc. congruence.
Qed.

(** The loop never needs more than four rounds. *)
Lemma readableSize_loop_fuel (n : nat) : forall (fuel : nat) (size : Q) (idx : nat),
  (4 <= idx + n)%nat -> (4 <= idx + fuel)%nat ->
  readableSize_loop n size idx = readableSize_loop fuel size idx.
Proof.
  induction n as [|n IH]; intros fuel size idx Hn Hfuel.
  - destruct fuel as [|fuel]; [reflexivity |]. cbn [readableSize_loop].
    destruct (Nat.ltb_spec idx 4); [lia |]. rewrite andb_false_r. reflexivity.
  - destruct fuel as [|fuel]; cbn [readableSize_loop].
    + destruct (Nat.ltb_spec idx 4); [lia |]. rewrite andb_false_r. reflexivity.
    + destruct (Qle_bool 1024 size && (idx <? 4)%nat) eqn:E; [| reflexivity].
      apply andb_prop in E as [_ E]. apply Nat.ltb_lt in E.
      apply IH; lia.
Qed.

(** X26: [readableSize] always lands on one of its five units, and the
    number it prints stands for the size it was given: number times the
    bytes of the unit is the size.  A size below 1024 (zero and negative
    ones too) is printed as it is, in B; from KB on the number is at least
    1, and it is below 1024 for every unit but TB, the last one.  The loop
    is done after at most four rounds. *)
Theorem readableSize_scales (size : Z) :
  exists v i,
    readableSize_loop 4 (inject_Z size) 0 = (v, i) /\
    readableSize_parts size = (v, nth i units EmptyString) /\
    (i <= 4)%nat /\ In (nth i units EmptyString) units /\
    v * unit_factor i == inject_Z size /\
    ((i < 4)%nat -> v < 1024) /\
    ((0 < i)%nat -> 1 <= v) /\
    ((size < 1024)%Z -> i = 0%nat /\ v = inject_Z size) /\
    (forall fuel, (4 <= fuel)%nat ->
                  readableSize_loop fuel (inject_Z size) 0 = (v, i)).
Proof.
  destruct (readableSize_loop_spec 4 (inject_Z size) 0)
    as (v & i & Hloop & Hi & Hv & Hsmall & Hbig & Hlow); [lia | lia |].
  exists v, i. split; [exact Hloop |].
  split; [unfold readableSize_parts; rewrite Hloop; reflexivity |].
  split; [lia |].
  split.
  { destruct Hi as [_ Hi]. do 5 (destruct i as [|i]; [cbn; tauto |]). lia. }
  rewrite Nat.sub_0_r in Hv. split; [exact Hv |].
  split; [exact Hsmall |]. split; [exact Hbig |].
  split.
  { intros Hs. apply Hlow. rewrite Zlt_Qlt in Hs. exact Hs. }
  intros fuel Hfuel. rewrite <- Hloop.
  apply readableSize_loop_fuel; lia.
Qed.

End ReadableSizeFacts.
